(** * The ICU tokenizer of Nominatim: name analyzer, token cache, word table

  A shallow embedding of [nominatim/tokenizer/icu_tokenizer.py] and
  [nominatim/tokenizer/icu_token_analysis.py].

  - Python [str] built-ins are modelled in [Module Py] on the ASCII
    repertoire.
  - The [word] table behind [self.conn] is a list of rows; every
    [cursor.execute] / [copy_out] is written out as a function on that
    list and recorded in a log of SQL statements.
  - The analyzer object ([conn], [_cache]) is threaded through a state
    monad that can raise Python exceptions.
  - The ICU transliterators, the analysis modules and the PL/pgSQL
    functions [getorcreate_*] live outside the Python sources; they are
    parameters of the development.
  - Sets are [gset]s; where the source iterates over a set or turns it
    into a list, the order is the one of [elements], and no statement
    below depends on it.

  - [update_postcodes_from_db] and [get_word_token_info] touch the table
    only and are functions of the table.

  Left out: [LegacyICUTokenizer] (set-up of the database) and
  [add_country_names], which hands its argument to the sanitizer first. *)

From stdpp Require Import gmap strings list pretty.
From Stdlib Require Import Ascii.

Local Open Scope Z_scope.

(** ** Python string built-ins *)

Module Py.

(** [c.isspace()] for an ASCII character: TAB, LF, VT, FF, CR, the four
    separators FS, GS, RS, US, and the blank. *)
Definition isspace (c : ascii) : bool :=
  let n := N_of_ascii c in
  ((9 <=? n) && (n <=? 13) || (28 <=? n) && (n <=? 32))%N.

(** [c.upper()] for an ASCII character: [a-z] go to [A-Z]. *)
Definition upper_char (c : ascii) : ascii :=
  let n := N_of_ascii c in
  if ((97 <=? n) && (n <=? 122))%N then ascii_of_N (n - 32) else c.

(** [s.upper()] *)
Fixpoint upper (s : string) : string :=
  match s with
  | EmptyString => EmptyString
  | String c r => String (upper_char c) (upper r)
  end.

(** [s.lstrip()] *)
Fixpoint lstrip (s : string) : string :=
  match s with
  | EmptyString => EmptyString
  | String c r => if isspace c then lstrip r else s
  end.

(** [s.rstrip()] *)
Fixpoint rstrip (s : string) : string :=
  match s with
  | EmptyString => EmptyString
  | String c r =>
      match rstrip r with
      | EmptyString => if isspace c then EmptyString else String c EmptyString
      | r' => String c r'
      end
  end.

(** [s.strip()] *)
Definition strip (s : string) : string := rstrip (lstrip s).

(** [c in s] for a single character [c] *)
Fixpoint contains (c : ascii) (s : string) : bool :=
  match s with
  | EmptyString => false
  | String d r => bool_decide (c = d) || contains c r
  end.

(** [re.search('[...]', s) is not None] for a character class given by
    the predicate [cls] *)
Fixpoint re_search_class (cls : ascii → bool) (s : string) : bool :=
  match s with
  | EmptyString => false
  | String c r => cls c || re_search_class cls r
  end.

(** [re.split('[...]', s)]: cut at every character of the class; empty
    pieces are kept, the result is never empty. *)
Fixpoint re_split_class (cls : ascii → bool) (s : string) : list string :=
  match s with
  | EmptyString => [EmptyString]
  | String c r =>
      if cls c then EmptyString :: re_split_class cls r
      else match re_split_class cls r with
           | [] => [String c EmptyString]
           | p :: ps => String c p :: ps
           end
  end.

(** [s.split()]: cut at runs of whitespace, no empty pieces. [cur] is
    the word being read, last character first. *)
Fixpoint split_go (cur : option string) (s : string) : list string :=
  match s with
  | EmptyString => match cur with Some w => [String.rev w] | None => [] end
  | String c r =>
      if isspace c
      then match cur with
           | Some w => String.rev w :: split_go None r
           | None => split_go None r
           end
      else split_go (Some (String c (default EmptyString cur))) r
  end.

Definition split (s : string) : list string := split_go None s.

(** [sep.join(l)] *)
Fixpoint join (sep : string) (l : list string) : string :=
  match l with
  | [] => EmptyString
  | [x] => x
  | x :: r => x +:+ sep +:+ join sep r
  end.

(** [s.startswith(p)] *)
Definition startswith (s p : string) : bool := String.prefix p s.

(** [str(x)] *)
Class Str (A : Type) := str : A → string.
Global Instance str_int : Str Z := pretty.
(** an integer column that may be NULL arrives as [None] *)
Global Instance str_opt_int : Str (option Z) := λ o,
  match o with Some z => pretty z | None => "None" end.

(** Truth value of a string: empty strings are false. *)
Definition truthy (s : string) : bool :=
  match s with EmptyString => false | _ => true end.

End Py.

(** ** [LegacyICUNameAnalyzer.normalize_postcode] *)

Definition normalize_postcode (postcode : string) : string :=
  Py.upper (Py.strip postcode).

(** ** Exceptions, results *)

Inductive exn := KeyError | TypeError | IndexError.

Inductive result (A : Type) :=
| Ok (a : A)
| Raise (e : exn).
Arguments Ok {A} a.
Arguments Raise {A} e.

(** ** The [word] table

    [word_id], [word] and [info] are nullable columns. Of the JSON in
    [info] the keys written and read by the analyzer are kept: [class],
    [type] and [op] of a special phrase. *)

Record word_info := {
  info_class : string;
  info_type : string;
  info_op : option string
}.

Record word_row := {
  word_id : option Z;
  word_token : string;
  type : string;
  word : option string;
  info : option word_info
}.

(** A special phrase as compared by the synchronizer: (word, class, type,
    operator). The first component of a row read back from the table can
    be NULL. *)
Definition phrase : Type := option string * string * string * string.

(** Every statement sent through a cursor, in the order of the source. *)
Inductive sql :=
| SelectSpecialPhrases
| CopySpecialPhrases (rows : list word_row)
| DeleteSpecialPhrases (values : list phrase)
| SelectCountryTokens (country_code : string)
| InsertCountryTokens (country_code : string) (tokens : list string)
| GetorcreatePartialWord (words : list string)
| SelectFullTokens (norm_name : string)
| GetorcreateFullWord (token_id : string) (variants : list string)
| InsertPostcode (term postcode : string)
| GetorcreateHnrId (terms : list string).

(** ** [_TokenCache] *)

Record TokenCache := {
  names : gmap string (Z * list Z);
  partials : gmap string Z;
  fulls : gmap string (list (option Z));
  postcodes : gset string;
  housenumbers : gmap string Z
}.

(** [_TokenCache.__init__] *)
Definition TokenCache_init : TokenCache :=
  {| names := ∅; partials := ∅; fulls := ∅; postcodes := ∅; housenumbers := ∅ |}.

Definition set_names (v : gmap string (Z * list Z)) (c : TokenCache) : TokenCache :=
  {| names := v; partials := partials c; fulls := fulls c;
     postcodes := postcodes c; housenumbers := housenumbers c |}.

Definition set_partials (v : gmap string Z) (c : TokenCache) : TokenCache :=
  {| names := names c; partials := v; fulls := fulls c;
     postcodes := postcodes c; housenumbers := housenumbers c |}.

Definition set_fulls (v : gmap string (list (option Z))) (c : TokenCache) : TokenCache :=
  {| names := names c; partials := partials c; fulls := v;
     postcodes := postcodes c; housenumbers := housenumbers c |}.

Definition set_postcodes (v : gset string) (c : TokenCache) : TokenCache :=
  {| names := names c; partials := partials c; fulls := fulls c;
     postcodes := v; housenumbers := housenumbers c |}.

Definition set_housenumbers (v : gmap string Z) (c : TokenCache) : TokenCache :=
  {| names := names c; partials := partials c; fulls := fulls c;
     postcodes := postcodes c; housenumbers := v |}.

(** ** The analyzer object

    [conn] is the content of the [word] table reached through the
    connection, [_cache] the session cache, [statements] the log of what
    was executed so far (newest last). *)

Record analyzer := {
  conn : list word_row;
  _cache : TokenCache;
  statements : list sql
}.

(** [LegacyICUNameAnalyzer.__init__] on a database holding [db] *)
Definition analyzer_init (db : list word_row) : analyzer :=
  {| conn := db; _cache := TokenCache_init; statements := [] |}.

(** Methods of the analyzer: they read and change the object and either
    return or raise. What was changed before an exception stays changed. *)
Definition M (A : Type) : Type := analyzer → result A * analyzer.

Global Instance M_ret : MRet M := λ A (a : A) s, (Ok a, s).

Definition raise {A} (e : exn) : M A := λ s, (Raise e, s).

Global Instance M_bind : MBind M := λ A B (k : A → M B) (m : M A) s,
  match m s with
  | (Ok a, s') => k a s'
  | (Raise e, s') => (Raise e, s')
  end.

Definition lift {A} (r : result A) : M A := λ s, (r, s).

Definition get_cache : M TokenCache := λ s, (Ok (_cache s), s).

Definition modify_cache (f : TokenCache → TokenCache) : M unit := λ s,
  (Ok tt, {| conn := conn s; _cache := f (_cache s); statements := statements s |}).

Definition get_db : M (list word_row) := λ s, (Ok (conn s), s).

Definition put_db (db : list word_row) : M unit := λ s,
  (Ok tt, {| conn := db; _cache := _cache s; statements := statements s |}).

(** [cur.execute(q)]: the statement is logged; its effect on the table is
    written next to each call. *)
Definition execute (q : sql) : M unit := λ s,
  (Ok tt, {| conn := conn s; _cache := _cache s; statements := statements s ++ [q] |}).

(** [for x in l: acc = f(acc, x)] *)
Fixpoint for_each {A B} (f : B → A → M B) (acc : B) (l : list A) : M B :=
  match l with
  | [] => mret acc
  | x :: r => acc' ← f acc x; for_each f acc' r
  end.

(** ** Input records

    [PlaceName] is what the sanitizer hands over, for names and for
    address parts alike: [name], [kind], [suffix] and the attributes. *)

Record PlaceName := {
  name : string;
  kind : string;
  suffix : option string;
  attr : gmap string string
}.

(** [PlaceName.get_attr(key)] *)
Definition get_attr (p : PlaceName) (key : string) : option string := attr p !! key.

(** [not item.suffix] *)
Definition no_suffix (p : PlaceName) : bool :=
  match suffix p with
  | None => true
  | Some s => negb (Py.truthy s)
  end.

(** A place after [sanitizer.process_names]: the name list, the address
    list, and what [is_country()] and [country_code] answer. *)
Record PlaceInfo := {
  place_names : list PlaceName;
  place_address : list PlaceName;
  is_country : bool;
  country_code : string
}.

(** ** [ICUTokenAnalysis] *)

(** An analysis module, known by its method [get_variants_ascii]. *)
Record Analyzer := {
  get_variants_ascii : string → list string
}.

(** [normalizer] and [search] stand for the [transliterate] method of the
    two ICU transliterators; [analysis] is the dict of analysis modules,
    with [None] the key of the default one. *)
Record ICUTokenAnalysis := {
  normalizer : string → string;
  search : string → string;
  analysis : gmap (option string) Analyzer
}.

(** [ICUTokenAnalysis.get_analyzer] *)
Definition get_analyzer (self : ICUTokenAnalysis) (name : option string) : result Analyzer :=
  match analysis self !! name with
  | Some a => Ok a
  | None =>
      match analysis self !! None with
      | Some a => Ok a
      | None => Raise KeyError
      end
  end.

(** ** [_TokenInfo]

    [data] maps a field name to a string or, for [addr], to a dict of
    strings. The cache a [_TokenInfo] holds is the analyzer's own. *)

Inductive token_value :=
| VStr (s : string)
| VDict (d : gmap string string).

(** [_TokenInfo._mk_array] *)
Definition _mk_array {A} `{Py.Str A} (tokens : list A) : string :=
  "{" +:+ Py.join "," (Py.str <$> tokens) +:+ "}".

(** [_TokenInfo.add_names]; iterating a set yields its elements in some
    order without repetition. *)
Definition add_names (data : gmap string token_value) (fulls_ partials_ : gset Z)
    : gmap string token_value :=
  <["names" := VStr (_mk_array (elements fulls_ ++ elements partials_))]> data.

(** [_TokenInfo.add_street] *)
Definition add_street (data : gmap string token_value) (tokens : list (option Z))
    : gmap string token_value :=
  <["street" := VStr (_mk_array tokens)]> data.

(** [_TokenInfo.add_place] *)
Definition add_place (data : gmap string token_value) (tokens : list Z)
    : gmap string token_value :=
  match tokens with
  | [] => data
  | _ => <["place" := VStr (_mk_array tokens)]> data
  end.

(** [_TokenInfo.add_address_terms] *)
Definition add_address_terms (data : gmap string token_value)
    (terms : list (string * list Z)) : gmap string token_value :=
  let tokens :=
    foldl (λ (d : gmap string string) '(key, partials_),
             match partials_ with
             | [] => d
             | _ => <[key := _mk_array partials_]> d
             end) ∅ terms in
  if decide (tokens = ∅) then data else <["addr" := VDict tokens]> data.

(** ** A small configuration to run the analyzer on

    Transliterators compiled from empty rule sets leave a string alone.
    The default analysis module proposes the normalized name itself as its
    only variant; the module registered as [mute] proposes nothing. The
    database functions hand out the next free id and add a row when the
    token is new. *)

Definition plain_analyzer : Analyzer := {| get_variants_ascii := λ norm_name, [norm_name] |}.

Definition mute_analyzer : Analyzer := {| get_variants_ascii := λ _, [] |}.

Definition sample_analysis : ICUTokenAnalysis :=
  {| normalizer := λ s, s; search := λ s, s;
     analysis := <[Some "mute" := mute_analyzer]> {[ None := plain_analyzer ]} |}.

Definition next_id (db : list word_row) : Z := Z.of_nat (length db) + 1.

Definition find_id (db : list word_row) (typ token : string) : option Z :=
  match filter (λ r, type r = typ ∧ word_token r = token) db with
  | r :: _ => word_id r
  | [] => None
  end.

Definition sample_getorcreate (typ : string) (db : list word_row) (token : string)
    : list word_row * Z :=
  match find_id db typ token with
  | Some i => (db, i)
  | None =>
      (db ++ [{| word_id := Some (next_id db); word_token := token; type := typ;
                 word := None; info := None |}], next_id db)
  end.

Definition sample_getorcreate_full_word (db : list word_row) (token_id : string)
    (variants : list string) : list word_row * (Z * list Z) :=
  let '(db, full) := sample_getorcreate "W" db token_id in
  let '(db, part) := sample_getorcreate "w" db token_id in
  (db, (full, [part])).

Definition mk_name (n : string) (analyzer_id : option string) : PlaceName :=
  {| name := n; kind := "name"; suffix := None;
     attr := match analyzer_id with
             | Some a => {[ "analyzer" := a ]}
             | None => ∅
             end |}.

Definition mk_address (k n : string) : PlaceName :=
  {| name := n; kind := k; suffix := None; attr := ∅ |}.

(** ** [LegacyICUNameAnalyzer] *)

Section Analyzer.

(** [self.token_analysis] *)
Variable token_analysis : ICUTokenAnalysis.

(** The PL/pgSQL functions of [tokenizer/icu_tokenizer.sql], as they act
    on the [word] table. *)
Variable getorcreate_full_word :
  list word_row → string → list string → list word_row * (Z * list Z).
Variable getorcreate_partial_word : list word_row → string → list word_row * Z.
Variable getorcreate_hnr_id : list word_row → string → list word_row * Z.

Definition _search_normalized (name_ : string) : string :=
  Py.strip (search token_analysis name_).

Definition _normalized (name_ : string) : string :=
  Py.strip (normalizer token_analysis name_).

Definition _make_standard_hnr (hnr : string) : string := _search_normalized hnr.

(** *** Special phrases *)

(** [info.get('op') or '-'] *)
Definition op_or_dash (op : option string) : string :=
  match op with
  | Some o => if Py.truthy o then o else "-"
  | None => "-"
  end.

(** [SELECT word, info FROM word WHERE type = 'S'] *)
Definition select_special_phrases (db : list word_row)
    : list (option string * option word_info) :=
  (λ r, (word r, info r)) <$> filter (λ r, type r = "S") db.

(** The loop reading the old phrases; subscripting a NULL [info] raises. *)
Fixpoint read_existing_phrases (rows : list (option string * option word_info))
    (existing_phrases : gset phrase) : result (gset phrase) :=
  match rows with
  | [] => Ok existing_phrases
  | (w, None) :: _ => Raise TypeError
  | (w, Some i) :: rest =>
      read_existing_phrases rest
        (existing_phrases ∪ {[ (w, info_class i, info_type i, op_or_dash (info_op i)) ]})
  end.

(** The row [copystr.add(term, 'S', word, json.dumps(...))] produces. *)
Definition special_phrase_row (term word_ cls typ oper : string) : word_row :=
  {| word_id := None; word_token := term; type := "S"; word := Some word_;
     info := Some {| info_class := cls; info_type := typ;
                     info_op := if bool_decide (oper = "in") || bool_decide (oper = "near")
                                then Some oper else None |} |}.

(** The loop of [_add_special_phrases] over [to_add]; [rows] is the copy
    buffer. *)
Fixpoint add_phrases_loop (to_add : list phrase) (rows : list word_row) (added : Z)
    : result (list word_row * Z) :=
  match to_add with
  | [] => Ok (rows, added)
  | (None, _, _, _) :: _ => Raise TypeError
  | (Some word_, cls, typ, oper) :: rest =>
      let term := _search_normalized word_ in
      if Py.truthy term
      then add_phrases_loop rest (rows ++ [special_phrase_row term word_ cls typ oper]) (added + 1)
      else add_phrases_loop rest rows added
  end.

Definition _add_special_phrases (new_phrases existing_phrases : gset phrase) : M Z :=
  let to_add := new_phrases ∖ existing_phrases in
  '(rows, added) ← lift (add_phrases_loop (elements to_add) [] 0);
  execute (CopySpecialPhrases rows);;
  db ← get_db;
  put_db (db ++ rows);;
  mret added.

(** The [WHERE] clause of the [DELETE] for one value tuple [v] and one
    row [r]; a comparison with NULL is not true. *)
Definition delete_matches (r : word_row) (v : phrase) : bool :=
  match v, word r, info r with
  | (Some name_, in_class, in_type, op), Some w, Some i =>
      bool_decide (type r = "S") && bool_decide (w = name_)
      && bool_decide (info_class i = in_class) && bool_decide (info_type i = in_type)
      && (bool_decide (op = "-") && bool_decide (info_op i = None)
          || bool_decide (info_op i = Some op))
  | _, _, _ => false
  end.

Definition _remove_special_phrases (new_phrases existing_phrases : gset phrase) : M Z :=
  let to_delete := existing_phrases ∖ new_phrases in
  (if decide (to_delete = ∅) then mret tt
   else
     execute (DeleteSpecialPhrases (elements to_delete));;
     db ← get_db;
     put_db (filter (λ r, ¬ existsb (delete_matches r) (elements to_delete)) db));;
  mret (Z.of_nat (size to_delete)).

(** The set [update_special_phrases] builds from its argument. *)
Definition norm_phrases_of (phrases : list (string * string * string * string)) : gset phrase :=
  list_to_set ((λ p, (Some (_normalized p.1.1.1), p.1.1.2, p.1.2, p.2)) <$> phrases).

(** [update_special_phrases]; the result is what the method logs: the
    number of phrases, of added ones and of deleted ones. *)
Definition update_special_phrases (phrases : list (string * string * string * string))
    (should_replace : bool) : M (Z * Z * Z) :=
  let norm_phrases := norm_phrases_of phrases in
  execute SelectSpecialPhrases;;
  db ← get_db;
  existing_phrases ← lift (read_existing_phrases (select_special_phrases db) ∅);
  added ← _add_special_phrases norm_phrases existing_phrases;
  deleted ← (if should_replace
             then _remove_special_phrases norm_phrases existing_phrases
             else mret 0);
  mret (Z.of_nat (size norm_phrases), added, deleted).

(** *** Country names *)

(** The first loop of [_add_country_full_names]. *)
Definition country_word_tokens (names_ : list PlaceName) : gset string :=
  foldl (λ (word_tokens : gset string) n,
           let norm_name := _search_normalized (name n) in
           if Py.truthy norm_name then word_tokens ∪ {[ norm_name ]} else word_tokens)
        ∅ names_.

(** [SELECT word_token FROM word WHERE type = 'C' and word = %s] *)
Definition select_country_tokens (db : list word_row) (country_code_ : string)
    : list string :=
  word_token <$> filter (λ r, type r = "C" ∧ word r = Some country_code_) db.

(** A row of [INSERT INTO word (word_token, type, word)] for a country. *)
Definition country_row (country_code_ token : string) : word_row :=
  {| word_id := None; word_token := token; type := "C";
     word := Some country_code_; info := None |}.

Definition _add_country_full_names (country_code_ : string) (names_ : list PlaceName)
    : M unit :=
  let word_tokens := country_word_tokens names_ in
  execute (SelectCountryTokens country_code_);;
  db ← get_db;
  let word_tokens := word_tokens ∖ list_to_set (select_country_tokens db country_code_) in
  if decide (word_tokens = ∅) then mret tt
  else
    execute (InsertCountryTokens country_code_ (elements word_tokens));;
    put_db (db ++ (country_row country_code_ <$> elements word_tokens)).

(** *** Partial and full tokens *)

(** The first loop of [_compute_partial_tokens]: [if token:] is false for
    a missing entry and for the id 0. *)
Definition split_cached_partials (partials_ : gmap string Z) (words : list string)
    : list Z * list string :=
  foldl (λ '(tokens, need_lookup) partial,
           match partials_ !! partial with
           | Some token =>
               if bool_decide (token = 0)
               then (tokens, need_lookup ++ [partial])
               else (tokens ++ [token], need_lookup)
           | None => (tokens, need_lookup ++ [partial])
           end)
        ([], []) words.

(** One row of [SELECT word, getorcreate_partial_word(word) FROM unnest(%s)]
    and the loop body consuming it. *)
Definition lookup_partial (tokens : list Z) (partial : string) : M (list Z) :=
  db ← get_db;
  let '(db', token) := getorcreate_partial_word db partial in
  put_db db';;
  modify_cache (λ c, set_partials (<[partial := token]> (partials c)) c);;
  mret (tokens ++ [token]).

Definition _compute_partial_tokens (name_ : string) : M (list Z) :=
  let norm_name := _search_normalized name_ in
  c ← get_cache;
  let '(tokens, need_lookup) := split_cached_partials (partials c) (Py.split norm_name) in
  match need_lookup with
  | [] => mret tokens
  | _ =>
      execute (GetorcreatePartialWord need_lookup);;
      for_each lookup_partial tokens need_lookup
  end.

(** [SELECT word_id FROM word WHERE word_token = %s and type = 'W'] *)
Definition select_full_tokens (db : list word_row) (norm_name : string)
    : list (option Z) :=
  word_id <$> filter (λ r, word_token r = norm_name ∧ type r = "W") db.

Definition _retrieve_full_tokens (name_ : string) : M (list (option Z)) :=
  let norm_name := _search_normalized name_ in
  c ← get_cache;
  match fulls c !! norm_name with
  | Some full => mret full
  | None =>
      execute (SelectFullTokens norm_name);;
      db ← get_db;
      let full := select_full_tokens db norm_name in
      modify_cache (λ c, set_fulls (<[norm_name := full]> (fulls c)) c);;
      mret full
  end.

(** The dispatch key of a name: [norm_name] or [f'{norm_name}@{analyzer_id}']. *)
Definition token_id_of (norm_name : string) (analyzer_id : option string) : string :=
  match analyzer_id with
  | None => norm_name
  | Some a => norm_name +:+ "@" +:+ a
  end.

(** The body of the loop of [_compute_name_tokens]; [continue] leaves the
    two sets as they are. *)
Definition compute_name_step (acc : gset Z * gset Z) (n : PlaceName)
    : M (gset Z * gset Z) :=
  let '(full_tokens, partial_tokens) := acc in
  let analyzer_id := get_attr n "analyzer" in
  let norm_name := _normalized (name n) in
  let token_id := token_id_of norm_name analyzer_id in
  c ← get_cache;
  match names c !! token_id with
  | Some (full, part) =>
      mret (full_tokens ∪ {[ full ]}, partial_tokens ∪ list_to_set part)
  | None =>
      match analysis token_analysis !! analyzer_id with
      | None => raise KeyError
      | Some a =>
          match get_variants_ascii a norm_name with
          | [] => mret (full_tokens, partial_tokens)
          | variants =>
              execute (GetorcreateFullWord token_id variants);;
              db ← get_db;
              let '(db', (full, part)) := getorcreate_full_word db token_id variants in
              put_db db';;
              modify_cache (λ c, set_names (<[token_id := (full, part)]> (names c)) c);;
              mret (full_tokens ∪ {[ full ]}, partial_tokens ∪ list_to_set part)
          end
      end
  end.

Definition _compute_name_tokens (names_ : list PlaceName) : M (gset Z * gset Z) :=
  for_each compute_name_step (∅, ∅) names_.

(** *** Postcodes *)

(** The character class [[:,;]] *)
Definition postcode_separator (c : ascii) : bool :=
  bool_decide (c = ":"%char) || bool_decide (c = ","%char) || bool_decide (c = ";"%char).

(** [INSERT INTO word (word_token, type, word) (SELECT %s, 'P', pc ...
    WHERE NOT EXISTS (SELECT * FROM word WHERE type = 'P' and word = pc))] *)
Definition insert_postcode (db : list word_row) (term postcode : string)
    : list word_row :=
  if existsb (λ r, bool_decide (type r = "P") && bool_decide (word r = Some postcode)) db
  then db
  else db ++ [{| word_id := None; word_token := term; type := "P";
                 word := Some postcode; info := None |}].

Definition _add_postcode (postcode : string) : M unit :=
  if negb (Py.re_search_class postcode_separator postcode) then
    let postcode := normalize_postcode postcode in
    c ← get_cache;
    if decide (postcode ∈ postcodes c) then mret tt
    else
      let term := _search_normalized postcode in
      if negb (Py.truthy term) then mret tt
      else
        execute (InsertPostcode term postcode);;
        db ← get_db;
        put_db (insert_postcode db term postcode);;
        modify_cache (λ c, set_postcodes (postcodes c ∪ {[ postcode ]}) c)
  else mret tt.

(** *** House numbers *)

(** The character class [[;,]] *)
Definition hnr_separator (c : ascii) : bool :=
  bool_decide (c = ";"%char) || bool_decide (c = ","%char).

(** [_split_housenumbers]; [hnrs[0]] of an empty list raises. The list
    built from a set has the set's elements once each, in some order. *)
Definition _split_housenumbers (hnrs : list string) : result (list string) :=
  match hnrs with
  | [] => Raise IndexError
  | hnr0 :: _ =>
      if bool_decide (1 < length hnrs)%nat
         || Py.contains ","%char hnr0 || Py.contains ";"%char hnr0
      then
        let simple_list :=
          hnrs ≫= (λ hnr, Py.strip <$> Py.re_split_class hnr_separator hnr) in
        if bool_decide (1 < length simple_list)%nat
        then Ok (elements (list_to_set simple_list : gset string))
        else Ok simple_list
      else Ok hnrs
  end.

(** The first loop of [_TokenCache.get_hnr_tokens]. *)
Definition split_cached_hnrs (housenumbers_ : gmap string Z) (terms : list string)
    : list Z * list string :=
  foldl (λ '(tokens, askdb) term,
           match housenumbers_ !! term with
           | None => (tokens, askdb ++ [term])
           | Some token => (tokens ++ [token], askdb)
           end)
        ([], []) terms.

(** One row of [SELECT nr, getorcreate_hnr_id(nr) FROM unnest(%s) as nr]
    and the loop body consuming it. *)
Definition lookup_hnr (tokens : list Z) (term : string) : M (list Z) :=
  db ← get_db;
  let '(db', tid) := getorcreate_hnr_id db term in
  put_db db';;
  modify_cache (λ c, set_housenumbers (<[term := tid]> (housenumbers c)) c);;
  mret (tokens ++ [tid]).

(** [_TokenCache.get_hnr_tokens] *)
Definition get_hnr_tokens (terms : list string) : M (list Z) :=
  c ← get_cache;
  let '(tokens, askdb) := split_cached_hnrs (housenumbers c) terms in
  match askdb with
  | [] => mret tokens
  | _ =>
      execute (GetorcreateHnrId askdb);;
      for_each lookup_hnr tokens askdb
  end.

(** [_TokenInfo.add_housenumbers] *)
Definition add_housenumbers (data : gmap string token_value) (hnrs : list string)
    : M (gmap string token_value) :=
  tokens ← get_hnr_tokens hnrs;
  mret (<["hnr" := VStr (Py.join ";" hnrs)]>
          (<["hnr_tokens" := VStr (_mk_array tokens)]> data)).

(** *** Places *)

(** What the loop of [_process_place_address] carries along. *)
Record address_acc := {
  acc_hnrs : list string;
  acc_addr_terms : list (string * list Z);
  acc_streets : list (option Z);
  acc_data : gmap string token_value
}.

(** The body of the loop of [_process_place_address]. *)
Definition process_address_item (acc : address_acc) (item : PlaceName) : M address_acc :=
  if bool_decide (kind item = "postcode") then
    _add_postcode (name item);;
    mret acc
  else if bool_decide (kind item ∈ ["housenumber"; "streetnumber"; "conscriptionnumber"]) then
    mret {| acc_hnrs := acc_hnrs acc ++ [name item]; acc_addr_terms := acc_addr_terms acc;
            acc_streets := acc_streets acc; acc_data := acc_data acc |}
  else if bool_decide (kind item = "street") then
    full ← _retrieve_full_tokens (name item);
    mret {| acc_hnrs := acc_hnrs acc; acc_addr_terms := acc_addr_terms acc;
            acc_streets := acc_streets acc ++ full; acc_data := acc_data acc |}
  else if bool_decide (kind item = "place") then
    if no_suffix item then
      tokens ← _compute_partial_tokens (name item);
      mret {| acc_hnrs := acc_hnrs acc; acc_addr_terms := acc_addr_terms acc;
              acc_streets := acc_streets acc; acc_data := add_place (acc_data acc) tokens |}
    else mret acc
  else if negb (Py.startswith (kind item) "_") && no_suffix item
          && negb (bool_decide (kind item ∈ ["country"; "full"])) then
    tokens ← _compute_partial_tokens (name item);
    mret {| acc_hnrs := acc_hnrs acc;
            acc_addr_terms := acc_addr_terms acc ++ [(kind item, tokens)];
            acc_streets := acc_streets acc; acc_data := acc_data acc |}
  else mret acc.

Definition _process_place_address (token_info : gmap string token_value)
    (address : list PlaceName) : M (gmap string token_value) :=
  acc ← for_each process_address_item
          {| acc_hnrs := []; acc_addr_terms := []; acc_streets := [];
             acc_data := token_info |} address;
  data ← match acc_hnrs acc with
         | [] => mret (acc_data acc)
         | hnrs =>
             hnrs ← lift (_split_housenumbers hnrs);
             add_housenumbers (acc_data acc) (_make_standard_hnr <$> hnrs)
         end;
  let data := match acc_addr_terms acc with
              | [] => data
              | addr_terms => add_address_terms data addr_terms
              end in
  let data := match acc_streets acc with
              | [] => data
              | streets => add_street data streets
              end in
  mret data.

(** [process_place]: the returned [token_info.data]. *)
Definition process_place (place : PlaceInfo) : M (gmap string token_value) :=
  let token_info : gmap string token_value := ∅ in
  let names_ := place_names place in
  let address := place_address place in
  token_info ← match names_ with
               | [] => mret token_info
               | _ =>
                   '(fulls_, partials_) ← _compute_name_tokens names_;
                   let token_info := add_names token_info fulls_ partials_ in
                   (if is_country place
                    then _add_country_full_names (country_code place) names_
                    else mret tt);;
                   mret token_info
               end;
  match address with
  | [] => mret token_info
  | _ => _process_place_address token_info address
  end.

(** *** Methods that work on the table alone

    [update_postcodes_from_db] and [get_word_token_info] use the
    connection and nothing else of the analyzer; they are written as
    functions of the table. [location_postcode] is the column [postcode]
    of the table of that name. *)

(** The query of [update_postcodes_from_db]: the distinct postcodes,
    joined in full with the words of the postcode rows on [pc = word];
    kept are the pairs that lack one side. Unmatched postcodes come
    first, then unmatched words, each in the order of its table. *)
Definition select_postcode_differences (location_postcode : list (option string))
    (db : list word_row) : list (option string * option string) :=
  let pcs := remove_dups location_postcode in
  let words := word <$> filter (λ r, type r = "P") db in
  ((λ pc, (pc, None)) <$> filter (λ pc, ¬ (is_Some pc ∧ pc ∈ words)) pcs)
  ++ ((λ w, (None, w)) <$> filter (λ w, ¬ (is_Some w ∧ w ∈ pcs)) words).

(** The row [copystr.add(self._search_normalized(postcode), 'P', postcode)]
    produces. *)
Definition postcode_row (postcode : string) : word_row :=
  {| word_id := None; word_token := _search_normalized postcode; type := "P";
     word := Some postcode; info := None |}.

(** The loop of [update_postcodes_from_db] over the result of the query. *)
Definition postcode_differences_loop (rows : list (option string * option string))
    : list (option string) * list word_row :=
  foldl (λ '(to_delete, copystr) '(postcode, word_),
           match postcode with
           | None => (to_delete ++ [word_], copystr)
           | Some pc => (to_delete, copystr ++ [postcode_row pc])
           end)
        ([], []) rows.

(** [update_postcodes_from_db]: the table afterwards. [word = any(%s)] is
    true for a word that is not NULL and equals an element of the array. *)
Definition update_postcodes_from_db (location_postcode : list (option string))
    (db : list word_row) : list word_row :=
  let '(to_delete, copystr) :=
    postcode_differences_loop (select_postcode_differences location_postcode db) in
  let db := match to_delete with
            | [] => db
            | _ => filter (λ r, ¬ (type r = "P" ∧ is_Some (word r)
                                   ∧ word r ∈ to_delete)) db
            end in
  db ++ copystr.

(** [d[k] = v] on a dict, whose items keep the order of first insertion. *)
Fixpoint dict_set {V} (d : list (string * V)) (k : string) (v : V)
    : list (string * V) :=
  match d with
  | [] => [(k, v)]
  | (k', v') :: r =>
      if decide (k' = k) then (k, v) :: r else (k', v') :: dict_set r k v
  end.

(** The first loop of [get_word_token_info]: a word that starts with [#]
    is a full name and is looked up without the [#]. *)
Definition word_tokens_loop (words : list string)
    : list (string * string) * list (string * string) :=
  foldl (λ '(full_tokens, partial_tokens) word_,
           match word_ with
           | String "#" rest =>
               (dict_set full_tokens word_ (_search_normalized rest), partial_tokens)
           | _ =>
               (full_tokens, dict_set partial_tokens word_ (_search_normalized word_))
           end)
        ([], []) words.

(** [SELECT word_token, word_id FROM word WHERE word_token = ANY(%s) and
    type = ...], read into the dict [{r[0]: r[1] for r in cur}]. *)
Definition select_token_ids (db : list word_row) (typ : string) (tokens : list string)
    : gmap string (option Z) :=
  foldl (λ ids r, <[word_token r := word_id r]> ids) ∅
        (filter (λ r, word_token r ∈ tokens ∧ type r = typ) db).

(** [get_word_token_info]: (original word, word token, word id). *)
Definition get_word_token_info (db : list word_row) (words : list string)
    : list (string * string * option Z) :=
  let '(full_tokens, partial_tokens) := word_tokens_loop words in
  let full_ids := select_token_ids db "W" (snd <$> full_tokens) in
  let part_ids := select_token_ids db "w" (snd <$> partial_tokens) in
  ((λ '(k, v), (k, v, default None (full_ids !! v))) <$> full_tokens)
  ++ ((λ '(k, v), (k, v, default None (part_ids !! v))) <$> partial_tokens).

(** *** Vocabulary of the statements below *)

(** The key under which [_compute_name_tokens] caches a name. *)
Definition dispatch_key (n : PlaceName) : string :=
  token_id_of (_normalized (name n)) (get_attr n "analyzer").





(** A method that returns from every state, with a result in [P]. *)
Definition returns_with {A} (m : M A) (P : A → Prop) : Prop :=
  ∀ s, ∃ a s', m s = (Ok a, s') ∧ P a.

(** All the separated pieces of a list of raw house numbers. *)
Definition hnr_pieces (hnrs : list string) : list string :=
  hnrs ≫= (λ hnr, Py.strip <$> Py.re_split_class hnr_separator hnr).

(** The phrase tuple under which a stored row is read back. *)
Definition phrase_of_row (r : word_row) : option phrase :=
  match info r with
  | Some i => Some (word r, info_class i, info_type i, op_or_dash (info_op i))
  | None => None
  end.

(** The special-phrase rows as the analyzer itself writes them: with a
    word, with [info], and never with an empty operator string. *)
Definition phrase_rows_well_formed (db : list word_row) : Prop :=
  ∀ r, r ∈ db → type r = "S" →
    is_Some (word r) ∧ ∃ i, info r = Some i ∧ info_op i ≠ Some "".

(** The operators a caller is expected to pass. *)
Definition known_operator (op : string) : Prop :=
  op = "in" ∨ op = "near" ∨ op = "-".

(** A phrase whose word has a non-empty search form. *)
Definition storable (t : phrase) : Prop :=
  match t.1.1.1 with
  | Some w => Py.truthy (_search_normalized w) = true
  | None => False
  end.

(** A word that [_compute_partial_tokens] takes from the cache: it has an
    entry, and the entry is not the id 0. *)
Definition partial_cached (partials_ : gmap string Z) (w : string) : bool :=
  match partials_ !! w with
  | Some token => negb (bool_decide (token = 0))
  | None => false
  end.

(** An address item that goes into the [addr] field: none of the kinds
    with a treatment of their own, no internal kind, no suffix. *)
Definition generic_address_item (item : PlaceName) : Prop :=
  (kind item ∉ ["postcode"; "housenumber"; "streetnumber"; "conscriptionnumber";
                "street"; "place"; "country"; "full"])
  ∧ Py.startswith (kind item) "_" = false
  ∧ no_suffix item = true.

(** The token [get_word_token_info] looks a word up under. *)
Definition word_token_of (w : string) : string :=
  match w with
  | String "#" rest => _search_normalized rest
  | _ => _search_normalized w
  end.

(** * Properties *)

(** *** Facts on the string built-ins *)

Lemma upper_char_idemp c : Py.upper_char (Py.upper_char c) = Py.upper_char c.
Proof. by destruct c as [[] [] [] [] [] [] [] []]. Qed.

Lemma isspace_upper_char c : Py.isspace (Py.upper_char c) = Py.isspace c.
Proof. by destruct c as [[] [] [] [] [] [] [] []]. Qed.

Lemma upper_idemp s : Py.upper (Py.upper s) = Py.upper s.
Proof. induction s as [|c s IH]; simpl; [done|]. by rewrite upper_char_idemp, IH. Qed.

Lemma upper_empty_iff s : Py.upper s = "" ↔ s = "".
Proof. by destruct s. Qed.

Lemma lstrip_upper s : Py.lstrip (Py.upper s) = Py.upper (Py.lstrip s).
Proof.
  induction s as [|c s IH]; simpl; [done|].
  rewrite isspace_upper_char. by destruct (Py.isspace c).
Qed.

Lemma rstrip_upper s : Py.rstrip (Py.upper s) = Py.upper (Py.rstrip s).
Proof.
  induction s as [|c s IH]; simpl; [done|].
  rewrite IH, isspace_upper_char.
  destruct (Py.rstrip s); simpl; [by destruct (Py.isspace c)|done].
Qed.

Lemma strip_upper s : Py.strip (Py.upper s) = Py.upper (Py.strip s).
Proof. unfold Py.strip. by rewrite lstrip_upper, rstrip_upper. Qed.

Lemma lstrip_idemp s : Py.lstrip (Py.lstrip s) = Py.lstrip s.
Proof.
  induction s as [|c s IH]; simpl; [done|].
  destruct (Py.isspace c) eqn:E; [done|]. simpl. by rewrite E.
Qed.

Lemma rstrip_idemp s : Py.rstrip (Py.rstrip s) = Py.rstrip s.
Proof.
  induction s as [|c s IH]; simpl; [done|].
  destruct (Py.rstrip s) as [|d r] eqn:E.
  - destruct (Py.isspace c) eqn:Ec; simpl; [done|]. by rewrite Ec.
  - change (Py.rstrip (String c (String d r)))
      with (match Py.rstrip (String d r) with
            | "" => if Py.isspace c then "" else String c ""
            | r' => String c r'
            end).
    by rewrite IH.
Qed.

Lemma lstrip_rstrip s : Py.lstrip (Py.rstrip s) = Py.rstrip (Py.lstrip s).
Proof.
  induction s as [|c s IH]; simpl; [done|].
  destruct (Py.isspace c) eqn:Ec.
  - rewrite <- IH. destruct (Py.rstrip s) as [|d r]; [done|].
    cbn [Py.lstrip]. by rewrite Ec.
  - cbn [Py.rstrip]. destruct (Py.rstrip s) as [|d r]; cbn [Py.lstrip]; by rewrite Ec.
Qed.

Lemma strip_idemp s : Py.strip (Py.strip s) = Py.strip s.
Proof.
  unfold Py.strip.
  by rewrite lstrip_rstrip, lstrip_idemp, rstrip_idemp.
Qed.

(** What [strip] achieves: no whitespace at either end. *)
Lemma lstrip_head s c r : Py.lstrip s = String c r → Py.isspace c = false.
Proof.
  induction s as [|d s IH]; simpl; [done|].
  destruct (Py.isspace d) eqn:E; [done|]. by intros [= <- _].
Qed.

Lemma strip_head s c r : Py.strip s = String c r → Py.isspace c = false.
Proof.
  unfold Py.strip. rewrite <- lstrip_rstrip. apply lstrip_head.
Qed.


(** ** The analyzer monad *)

#[local] Set Warnings "-clear-no-such-hyp".
#[local] Set Default Proof Using "Type".

(** Statements that do not speak of the database functions are proved
    without them. *)
Ltac forget_db :=
  try clear getorcreate_full_word; try clear getorcreate_partial_word;
  try clear getorcreate_hnr_id.

Ltac unfold_M :=
  unfold mbind, mret, M_bind, M_ret, lift, raise, get_cache, get_db, put_db,
    modify_cache, execute in *.

Lemma for_each_app {A B} (f : B → A → M B) acc (l1 l2 : list A) s :
  for_each f acc (l1 ++ l2) s =
  match for_each f acc l1 s with
  | (Ok acc', s') => for_each f acc' l2 s'
  | (Raise e, s') => (Raise e, s')
  end.
Proof.
  revert acc s. induction l1 as [|x l1 IH]; intros acc s; [done|].
  simpl. unfold_M. destruct (f acc x s) as [[acc'|e] s']; [apply IH|done].
Qed.

(** ** Postcodes *)

Lemma add_postcode_separator postcode s :
  Py.re_search_class postcode_separator postcode = true →
  _add_postcode postcode s = (Ok (), s).
Proof. intros H. unfold _add_postcode. by rewrite H. Qed.

(** C1, as the code has it: a postcode item whose name contains one of
    [:], [,], [;] is neither normalized nor tokenized; the item is
    skipped, and table, cache and statement log stay as they were. *)
Theorem process_postcode_with_separator_skipped acc item s :
  kind item = "postcode" →
  Py.re_search_class postcode_separator (name item) = true →
  _add_postcode (name item) s = (Ok (), s)
  ∧ process_address_item acc item s = (Ok acc, s).
Proof.
  intros Hk Hsep. split; [by apply add_postcode_separator|].
  unfold process_address_item. rewrite bool_decide_eq_true_2 by done.
  unfold_M. by rewrite add_postcode_separator.
Qed.

(** For comparison, the postcode without separator: it is normalized and,
    unless cached or folded to nothing, present in the table afterwards. *)
Lemma add_postcode_plain postcode s :
  Py.re_search_class postcode_separator postcode = false →
  normalize_postcode postcode ∉ postcodes (_cache s) →
  Py.truthy (_search_normalized (normalize_postcode postcode)) = true →
  ∃ s', _add_postcode postcode s = (Ok (), s')
    ∧ (∃ r, r ∈ conn s' ∧ type r = "P" ∧ word r = Some (normalize_postcode postcode))
    ∧ normalize_postcode postcode ∈ postcodes (_cache s').
Proof.
  intros Hsep Hc Ht. unfold _add_postcode. rewrite Hsep. simpl. unfold_M. simpl.
  rewrite decide_False by done. rewrite Ht. simpl.
  eexists. split; [done|]. simpl. split; [|set_solver].
  unfold insert_postcode.
  destruct (existsb _ _) eqn:E.
  - apply existsb_exists in E as (r & Hin & Hr).
    apply andb_true_iff in Hr as [H1 H2].
    apply bool_decide_eq_true in H1, H2.
    exists r. by rewrite <- list_elem_of_In in Hin.
  - eexists. split; [apply elem_of_app; right; apply list_elem_of_singleton; done|done].
Qed.

(** ** Streets *)

Lemma retrieve_full_tokens_spec name_ s :
  let norm_name := _search_normalized name_ in
  ∃ full s',
    _retrieve_full_tokens name_ s = (Ok full, s')
    ∧ conn s' = conn s
    ∧ fulls (_cache s') !! norm_name = Some full
    ∧ match fulls (_cache s) !! norm_name with
      | Some cached => full = cached ∧ s' = s
      | None =>
          full = select_full_tokens (conn s) norm_name
          ∧ statements s' = statements s ++ [SelectFullTokens norm_name]
      end.
Proof.
  intros norm_name. unfold _retrieve_full_tokens. fold norm_name. unfold_M.
  destruct (fulls (_cache s) !! norm_name) as [cached|] eqn:E.
  - by exists cached, s.
  - eexists _, _. split; [done|]. simpl. by rewrite lookup_insert_eq.
Qed.

(** C8: a [street] item is resolved by [_retrieve_full_tokens] alone. The
    table is the same afterwards; the only statement that can be sent is
    the [SELECT] on full tokens, and none is sent when the name is in the
    cache, where the answer is kept. Nothing raises, and with an empty
    answer the item leaves the collected tokens as they were: a place that
    has this street only gets an empty token info. *)
Theorem process_street_item_read_only acc item s :
  kind item = "street" →
  let norm_name := _search_normalized (name item) in
  ∃ full s',
    process_address_item acc item s =
      (Ok {| acc_hnrs := acc_hnrs acc; acc_addr_terms := acc_addr_terms acc;
             acc_streets := acc_streets acc ++ full; acc_data := acc_data acc |}, s')
    ∧ conn s' = conn s
    ∧ fulls (_cache s') !! norm_name = Some full
    ∧ match fulls (_cache s) !! norm_name with
      | Some cached => full = cached ∧ s' = s
      | None =>
          full = select_full_tokens (conn s) norm_name
          ∧ statements s' = statements s ++ [SelectFullTokens norm_name]
      end
    ∧ (full = [] →
       process_address_item acc item s = (Ok acc, s')
       ∧ ∀ place, place_names place = [] → place_address place = [item] →
           process_place place s = (Ok ∅, s')).
Proof.
  intros Hk norm_name.
  destruct (retrieve_full_tokens_spec (name item) s) as (full & s' & Hr & Hdb & Hc & Hm).
  exists full, s'. unfold process_address_item.
  rewrite Hk. simpl. unfold_M. rewrite Hr.
  repeat split; try done.
  - subst. rewrite app_nil_r. by destruct acc.
  - subst. intros place Hn Ha. unfold process_place. rewrite Hn, Ha.
    unfold _process_place_address. simpl. unfold process_address_item.
    rewrite Hk. simpl. unfold_M. by rewrite Hr.
Qed.

(** ** Name tokens and the name cache *)








(** The pass returns whenever each name has its analysis module. *)
Lemma compute_name_tokens_returns names_ : ∀ acc s,
  (∀ n, n ∈ names_ → is_Some (analysis token_analysis !! get_attr n "analyzer")) →
  ∃ acc' s', for_each compute_name_step acc names_ s = (Ok acc', s').
Proof.
  induction names_ as [|n rest IH]; intros acc s Hall; [by eexists _, _|].
  simpl. unfold mbind, M_bind.
  assert (∃ acc2 s2, compute_name_step acc n s = (Ok acc2, s2)) as (acc2 & s2 & ->).
  { unfold compute_name_step. destruct acc as [ft pt]. unfold_M. simpl.
    destruct (names (_cache s) !! _) as [[f p]|]; [by eexists _, _|].
    destruct (Hall n) as [a ->]; [by left|].
    destruct (get_variants_ascii a _); [by eexists _, _|].
    destruct (getorcreate_full_word _ _ _) as [db' [f p]]. by eexists _, _. }
  apply IH. intros m Hm. apply Hall. by right.
Qed.

(** ** Special phrases *)

Lemma elem_of_norm_phrases_of phrases (t : phrase) :
  t ∈ norm_phrases_of phrases ↔
  ∃ text cls typ op,
    (text, cls, typ, op) ∈ phrases ∧ t = (Some (_normalized text), cls, typ, op).
Proof.
  unfold norm_phrases_of. rewrite elem_of_list_to_set, list_elem_of_fmap. split.
  - intros ([[[text cls] typ] op] & -> & Hin). by exists text, cls, typ, op.
  - intros (text & cls & typ & op & Hin & ->). by exists (text, cls, typ, op).
Qed.

Lemma elem_of_select_special_phrases db w oi :
  (w, oi) ∈ select_special_phrases db ↔
  ∃ r, r ∈ db ∧ type r = "S" ∧ word r = w ∧ info r = oi.
Proof.
  forget_db.
  unfold select_special_phrases. rewrite list_elem_of_fmap.
  setoid_rewrite list_elem_of_filter. naive_solver.
Qed.

Lemma read_existing_phrases_Ok rows : ∀ acc E,
  read_existing_phrases rows acc = Ok E →
  ∀ t, t ∈ E ↔
       t ∈ acc ∨ ∃ w i, (w, Some i) ∈ rows
                        ∧ t = (w, info_class i, info_type i, op_or_dash (info_op i)).
Proof.
  induction rows as [|[w [i|]] rows IH]; intros acc E; simpl.
  - intros [= <-] t. set_solver.
  - intros HE t. rewrite (IH _ _ HE), elem_of_union, elem_of_singleton.
    setoid_rewrite elem_of_cons. naive_solver.
  - done.
Qed.

Lemma read_existing_phrases_Raise rows : ∀ acc e,
  read_existing_phrases rows acc = Raise e → ∃ w, (w, None) ∈ rows.
Proof.
  induction rows as [|[w [i|]] rows IH]; intros acc e; simpl; [done| |].
  - intros (w' & ?)%IH. exists w'. by right.
  - intros _. exists w. by left.
Qed.

Lemma add_phrases_loop_spec to_add : ∀ rows added,
  (∀ t : phrase, t ∈ to_add → is_Some t.1.1.1) →
  ∃ new,
    add_phrases_loop to_add rows added = Ok (rows ++ new, added + Z.of_nat (length new))
    ∧ Forall (λ r, type r = "S") new
    ∧ ∀ r, r ∈ new ↔
           ∃ w cls typ op,
             (Some w, cls, typ, op) ∈ to_add
             ∧ Py.truthy (_search_normalized w) = true
             ∧ r = special_phrase_row (_search_normalized w) w cls typ op.
Proof.
  forget_db.
  induction to_add as [|[[[ow cls] typ] op] rest IH]; intros rows added Hall.
  { exists []. simpl. rewrite app_nil_r, Z.add_0_r. repeat split; try done; set_solver. }
  destruct (Hall (ow, cls, typ, op)) as [w Hw]; [by left|]. simpl in Hw. subst ow.
  simpl. destruct (Py.truthy (_search_normalized w)) eqn:Ht.
  - edestruct IH as (new & -> & HS & Hnew); [intros t Ht'; apply Hall; by right|].
    exists (special_phrase_row (_search_normalized w) w cls typ op :: new).
    split; [|split].
    + rewrite <- app_assoc. simpl. do 2 f_equal. lia.
    + by constructor.
    + intros r. rewrite elem_of_cons, Hnew. setoid_rewrite elem_of_cons.
      split; [|naive_solver].
      intros [->|(w' & c' & t' & o' & ? & ? & ->)]; [by exists w, cls, typ, op; auto|].
      exists w', c', t', o'. auto.
  - edestruct IH as (new & -> & HS & Hnew); [intros t Ht'; apply Hall; by right|].
    exists new. split; [done|]. split; [done|].
    intros r. rewrite Hnew. setoid_rewrite elem_of_cons.
    split; [naive_solver|].
    intros (w' & c' & t' & o' & [[= -> -> -> ->]|?] & Htr & ->); [congruence|].
    exists w', c', t', o'. auto.
Qed.

Lemma to_add_is_Some (phrases : list (string * string * string * string))
    (E : gset phrase) (t : phrase) :
  t ∈ elements (norm_phrases_of phrases ∖ E) → is_Some t.1.1.1.
Proof.
  rewrite elem_of_elements, elem_of_difference, elem_of_norm_phrases_of.
  intros [(text & cls & typ & op & _ & ->) _]. by eexists.
Qed.

(** The statements a synchronization sends after the first [SELECT]. *)
Lemma update_special_phrases_run phrases should_replace s E :
  read_existing_phrases (select_special_phrases (conn s)) ∅ = Ok E →
  let norm_phrases := norm_phrases_of phrases in
  let to_delete := E ∖ norm_phrases in
  ∃ rows,
    (∀ r, r ∈ rows ↔
          ∃ w cls typ op,
            (Some w, cls, typ, op) ∈ elements (norm_phrases ∖ E)
            ∧ Py.truthy (_search_normalized w) = true
            ∧ r = special_phrase_row (_search_normalized w) w cls typ op)
    ∧ Forall (λ r, type r = "S") rows
    ∧ update_special_phrases phrases should_replace s =
        (Ok (Z.of_nat (size norm_phrases), Z.of_nat (length rows),
             if should_replace then Z.of_nat (size to_delete) else 0),
         {| conn := if should_replace && bool_decide (to_delete ≠ ∅)
                    then filter (λ r, ¬ existsb (delete_matches r) (elements to_delete))
                                (conn s ++ rows)
                    else conn s ++ rows;
            _cache := _cache s;
            statements :=
              statements s ++ [SelectSpecialPhrases; CopySpecialPhrases rows]
              ++ if should_replace && bool_decide (to_delete ≠ ∅)
                 then [DeleteSpecialPhrases (elements to_delete)] else [] |}).
Proof.
  intros HE norm_phrases to_delete.
  destruct (add_phrases_loop_spec (elements (norm_phrases ∖ E)) [] 0
              (to_add_is_Some phrases E)) as (rows & Hloop & HS & Hrows).
  exists rows. split; [done|]. split; [done|].
  unfold update_special_phrases, _add_special_phrases, _remove_special_phrases.
  subst to_delete. fold norm_phrases. unfold_M. simpl. rewrite HE, Hloop. simpl.
  destruct should_replace; simpl.
  - destruct (decide (E ∖ norm_phrases = ∅)) as [Hd|Hd]; simpl.
    + rewrite bool_decide_eq_false_2 by (by intros []). by rewrite <- app_assoc.
    + rewrite bool_decide_eq_true_2 by done. by rewrite <- !app_assoc.
  - by rewrite <- app_assoc.
Qed.

(** C7: without the replace flag a synchronization deletes nothing: the
    reported number of deletions is 0, no [DELETE] is sent, and the table
    afterwards is the old table followed by the added special-phrase rows.
    If it raises (an old phrase row without [info]), the table is as it
    was. *)
Theorem update_special_phrases_additive phrases s :
  match update_special_phrases phrases false s with
  | (Ok (total, added, deleted), s') =>
      deleted = 0
      ∧ ∃ rows,
          conn s' = conn s ++ rows
          ∧ Forall (λ r, type r = "S") rows
          ∧ added = Z.of_nat (length rows)
          ∧ statements s' =
              statements s ++ [SelectSpecialPhrases; CopySpecialPhrases rows]
  | (Raise e, s') =>
      conn s' = conn s ∧ ∃ r, r ∈ conn s ∧ type r = "S" ∧ info r = None
  end.
Proof.
  destruct (read_existing_phrases (select_special_phrases (conn s)) ∅)
    as [E|e] eqn:HE.
  - destruct (update_special_phrases_run phrases false s E HE)
      as (rows & _ & HS & ->).
    split; [done|]. by exists rows.
  - unfold update_special_phrases. unfold_M. simpl. rewrite HE. simpl.
    split; [done|].
    apply read_existing_phrases_Raise in HE as [w Hw].
    apply elem_of_select_special_phrases in Hw as (r & ? & ? & ? & ?). eauto.
Qed.


(** ** Country names *)

Lemma select_country_tokens_app db1 db2 cc :
  select_country_tokens (db1 ++ db2) cc =
  select_country_tokens db1 cc ++ select_country_tokens db2 cc.
Proof. unfold select_country_tokens. by rewrite filter_app, fmap_app. Qed.

Lemma select_country_tokens_rows cc tokens :
  select_country_tokens (country_row cc <$> tokens) cc = tokens.
Proof.
  unfold select_country_tokens. induction tokens as [|t tokens IH]; [done|].
  rewrite fmap_cons, filter_cons_True by done. rewrite fmap_cons. by f_equal.
Qed.

Lemma add_country_full_names_run cc names_ s :
  let new_tokens :=
    elements (country_word_tokens names_
              ∖ list_to_set (select_country_tokens (conn s) cc)) in
  _add_country_full_names cc names_ s =
    (Ok (),
     {| conn := conn s ++ (country_row cc <$> new_tokens);
        _cache := _cache s;
        statements := statements s ++ SelectCountryTokens cc ::
                        match new_tokens with
                        | [] => []
                        | _ => [InsertCountryTokens cc new_tokens]
                        end |}).
Proof.
  intros new_tokens. unfold _add_country_full_names. unfold_M. simpl.
  fold new_tokens.
  destruct (decide (_ = ∅)) as [He|Hne].
  - subst new_tokens. rewrite He, elements_empty. simpl. by rewrite app_nil_r.
  - simpl. rewrite <- app_assoc. simpl.
    destruct new_tokens eqn:Hn; [|done].
    by apply elements_empty_inv, leibniz_equiv in Hn.
Qed.

(** C6: registering the names of a country appends rows for the tokens
    that the country does not have yet and touches no other row; repeated
    with the same code and names it sends the [SELECT] only and leaves the
    table as it is. *)
Theorem add_country_full_names_monotonic cc names_ s :
  ∃ new_tokens s1 s2,
    _add_country_full_names cc names_ s = (Ok (), s1)
    ∧ conn s1 = conn s ++ (country_row cc <$> new_tokens)
    ∧ NoDup new_tokens
    ∧ (∀ t, t ∈ new_tokens ↔
            t ∈ country_word_tokens names_ ∧ t ∉ select_country_tokens (conn s) cc)
    ∧ _add_country_full_names cc names_ s1 = (Ok (), s2)
    ∧ conn s2 = conn s1
    ∧ statements s2 = statements s1 ++ [SelectCountryTokens cc].
Proof.
  eexists _, _, _. split; [apply add_country_full_names_run|]. simpl.
  split; [done|]. split; [apply NoDup_elements|]. split.
  { intros t. rewrite elem_of_elements, elem_of_difference, elem_of_list_to_set. done. }
  rewrite add_country_full_names_run. simpl.
  rewrite select_country_tokens_app, select_country_tokens_rows.
  assert (country_word_tokens names_
          ∖ list_to_set (select_country_tokens (conn s) cc
                         ++ elements (country_word_tokens names_
                                      ∖ list_to_set (select_country_tokens (conn s) cc)))
          = (∅ : gset string)) as ->.
  { apply set_eq. intros t.
    rewrite elem_of_difference, elem_of_list_to_set, elem_of_app, elem_of_elements,
      elem_of_difference, elem_of_list_to_set.
    split; [|set_solver]. intros [? Hn]. exfalso. apply Hn.
    destruct (decide (t ∈ select_country_tokens (conn s) cc)); auto. }
  rewrite elements_empty. simpl. rewrite app_nil_r. done.
Qed.

(** ** House numbers *)

Lemma re_split_class_nonempty cls s : Py.re_split_class cls s ≠ [].
Proof.
  destruct s as [|c s]; simpl; [done|].
  destruct (cls c); [done|]. by destruct (Py.re_split_class cls s).
Qed.

(** Without a character of the class there is nothing to cut. *)
Lemma re_split_class_whole cls s :
  Py.re_search_class cls s = false → Py.re_split_class cls s = [s].
Proof.
  induction s as [|c s IH]; simpl; [done|].
  destruct (cls c); simpl; [done|]. by intros ->%IH.
Qed.

(** No piece holds a character of the class. *)
Lemma re_split_class_pieces cls s p :
  p ∈ Py.re_split_class cls s → Py.re_search_class cls p = false.
Proof.
  revert p. induction s as [|c s IH]; intros p; simpl.
  { by intros ->%list_elem_of_singleton. }
  destruct (cls c) eqn:Hc.
  - intros [->|?]%elem_of_cons; [done|by apply IH].
  - destruct (Py.re_split_class cls s) as [|q qs]; simpl.
    + intros ->%list_elem_of_singleton. simpl. by rewrite Hc.
    + intros [->|?]%elem_of_cons.
      * simpl. rewrite Hc. apply IH. by left.
      * apply IH. by right.
Qed.

Lemma contains_separator hnr :
  Py.contains ","%char hnr || Py.contains ";"%char hnr
  = Py.re_search_class hnr_separator hnr.
Proof.
  induction hnr as [|c hnr IH]; simpl; [done|]. rewrite <- IH. unfold hnr_separator.
  rewrite !(bool_decide_ext (_ = c) (c = _)) by naive_solver.
  destruct (bool_decide (c = ","%char)), (bool_decide (c = ";"%char)),
    (Py.contains ","%char hnr), (Py.contains ";"%char hnr); done.
Qed.

(** C5: the two examples, and the rule. With more than one raw value, or
    with a [,] or [;] in the only one, the result holds exactly the
    stripped pieces between the separators, each once when there is more
    than one piece; otherwise the list comes back as it is. *)
Theorem split_housenumbers_spec :
  (∃ l, _split_housenumbers ["12,14"; "16"] = Ok l ∧ NoDup l
        ∧ ∀ x, x ∈ l ↔ x ∈ ["12"; "14"; "16"])
  ∧ _split_housenumbers ["12"] = Ok ["12"]
  ∧ ∀ hnr0 rest,
      let hnrs := hnr0 :: rest in
      if bool_decide (1 < length hnrs)%nat
         || Py.contains ","%char hnr0 || Py.contains ";"%char hnr0
      then ∃ l, _split_housenumbers hnrs = Ok l
                ∧ (∀ x, x ∈ l ↔ x ∈ hnr_pieces hnrs)
                ∧ ((1 < length (hnr_pieces hnrs))%nat → NoDup l)
                ∧ ((length (hnr_pieces hnrs) ≤ 1)%nat → l = hnr_pieces hnrs)
      else _split_housenumbers hnrs = Ok hnrs.
Proof.
  split; [|split; [done|]].
  - eexists. split; [by vm_compute|]. split.
    + apply (bool_decide_unpack _). by vm_compute.
    + intros x. rewrite !elem_of_cons. naive_solver.
  - intros hnr0 rest hnrs. unfold _split_housenumbers. subst hnrs. cbv beta iota.
    destruct (_ || _ || _); [|done]. fold (hnr_pieces (hnr0 :: rest)).
    case_bool_decide as Hlen.
    + eexists. split; [done|]. split; [|split; [|lia]].
      * intros x. by rewrite elem_of_elements, elem_of_list_to_set.
      * intros _. apply NoDup_elements.
    + eexists. split; [done|]. split; [done|]. split; [lia|done].
Qed.

(** A single value without separator is not even stripped. *)
Lemma split_housenumbers_single hnr :
  Py.re_search_class hnr_separator hnr = false →
  _split_housenumbers [hnr] = Ok [hnr].
Proof.
  intros H. unfold _split_housenumbers.
  rewrite <- orb_assoc, contains_separator, H. done.
Qed.

(** ** Methods that cannot raise *)

Lemma returns_ret {A} (a : A) (P : A → Prop) : P a → returns_with (mret a) P.
Proof. intros HP s. by exists a, s. Qed.

Lemma returns_bind {A B} (m : M A) (k : A → M B) (Q : A → Prop) (P : B → Prop) :
  returns_with m Q → (∀ a, Q a → returns_with (k a) P) → returns_with (m ≫= k) P.
Proof.
  intros Hm Hk s. destruct (Hm s) as (a & s1 & Hrun & HQ).
  destruct (Hk a HQ s1) as (b & s2 & Hrun2 & HP).
  exists b, s2. unfold mbind, M_bind. by rewrite Hrun.
Qed.

Lemma returns_weaken {A} (m : M A) (Q P : A → Prop) :
  returns_with m Q → (∀ a, Q a → P a) → returns_with m P.
Proof.
  intros Hm HQP s. destruct (Hm s) as (a & s1 & Hrun & HQ). exists a, s1. auto.
Qed.

Lemma returns_for_each {A B} (f : B → A → M B) (I : B → Prop) (l : list A) :
  (∀ acc x, I acc → returns_with (f acc x) I) →
  ∀ acc, I acc → returns_with (for_each f acc l) I.
Proof.
  intros Hf. induction l as [|x l IH]; intros acc HI; simpl.
  - by apply returns_ret.
  - eapply returns_bind; [by apply Hf|]. intros acc' HI'. by apply IH.
Qed.

Lemma returns_execute q : returns_with (execute q) (λ _, True).
Proof. intros s. by eexists _, _. Qed.

Lemma returns_get_cache : returns_with get_cache (λ _, True).
Proof. intros s. by eexists _, _. Qed.

Lemma returns_get_db : returns_with get_db (λ _, True).
Proof. intros s. by eexists _, _. Qed.

Lemma returns_put_db db : returns_with (put_db db) (λ _, True).
Proof. intros s. by eexists _, _. Qed.

Lemma returns_modify_cache f : returns_with (modify_cache f) (λ _, True).
Proof. intros s. by eexists _, _. Qed.

Ltac returns_step :=
  first
    [ apply returns_ret
    | eapply returns_bind;
      [ first [ apply returns_execute | apply returns_get_cache | apply returns_get_db
              | apply returns_put_db | apply returns_modify_cache ]
      | intros ? _ ] ].

Lemma returns_add_postcode postcode : returns_with (_add_postcode postcode) (λ _, True).
Proof.
  unfold _add_postcode. destruct (negb _); [|by apply returns_ret].
  returns_step. case_decide; [by apply returns_ret|].
  destruct (negb _); [by apply returns_ret|].
  do 3 returns_step. apply returns_modify_cache.
Qed.

Lemma returns_lookup_partial tokens partial :
  returns_with (lookup_partial tokens partial) (λ _, True).
Proof.
  unfold lookup_partial. returns_step.
  destruct (getorcreate_partial_word _ _). by do 3 returns_step.
Qed.

Lemma returns_compute_partial_tokens name_ :
  returns_with (_compute_partial_tokens name_) (λ _, True).
Proof.
  unfold _compute_partial_tokens. returns_step.
  destruct (split_cached_partials _ _) as [tokens [|p need_lookup]];
    [by apply returns_ret|].
  returns_step. apply returns_for_each; [|done].
  intros. apply returns_lookup_partial.
Qed.

Lemma returns_retrieve_full_tokens name_ :
  returns_with (_retrieve_full_tokens name_) (λ _, True).
Proof.
  intros s. destruct (retrieve_full_tokens_spec name_ s) as (full & s' & -> & _).
  by exists full, s'.
Qed.

Lemma returns_lookup_hnr tokens term :
  returns_with (lookup_hnr tokens term) (λ _, True).
Proof.
  unfold lookup_hnr. returns_step.
  destruct (getorcreate_hnr_id _ _). by do 3 returns_step.
Qed.

Lemma returns_get_hnr_tokens terms : returns_with (get_hnr_tokens terms) (λ _, True).
Proof.
  unfold get_hnr_tokens. returns_step.
  destruct (split_cached_hnrs _ _) as [tokens [|t askdb]]; [by apply returns_ret|].
  returns_step. apply returns_for_each; [|done].
  intros. apply returns_lookup_hnr.
Qed.

Lemma returns_add_housenumbers data hnrs :
  returns_with (add_housenumbers data hnrs)
    (λ data', data' !! "names" = data !! "names").
Proof.
  unfold add_housenumbers.
  eapply returns_bind; [apply returns_get_hnr_tokens|]. intros tokens _.
  apply returns_ret. by rewrite !lookup_insert_ne.
Qed.

Lemma returns_add_country_full_names cc names_ :
  returns_with (_add_country_full_names cc names_) (λ _, True).
Proof. intros s. rewrite add_country_full_names_run. by eexists _, _. Qed.

Lemma split_housenumbers_Ok hnr0 rest : ∃ l, _split_housenumbers (hnr0 :: rest) = Ok l.
Proof.
  unfold _split_housenumbers. cbv beta iota.
  destruct (_ || _ || _); [|by eexists]. case_bool_decide; by eexists.
Qed.

(** ** Places *)

Lemma add_place_names data tokens : add_place data tokens !! "names" = data !! "names".
Proof. unfold add_place. destruct tokens; [done|]. by rewrite lookup_insert_ne. Qed.

Lemma add_address_terms_names data terms :
  add_address_terms data terms !! "names" = data !! "names".
Proof.
  unfold add_address_terms. case_decide; [done|]. by rewrite lookup_insert_ne.
Qed.

Lemma add_street_names data tokens : add_street data tokens !! "names" = data !! "names".
Proof. unfold add_street. by rewrite lookup_insert_ne. Qed.

Lemma returns_process_address_item v acc item :
  acc_data acc !! "names" = v →
  returns_with (process_address_item acc item) (λ acc', acc_data acc' !! "names" = v).
Proof.
  intros Hv. unfold process_address_item.
  repeat case_bool_decide.
  - eapply returns_bind; [apply returns_add_postcode|]. intros _ _. by apply returns_ret.
  - by apply returns_ret.
  - eapply returns_bind; [apply returns_retrieve_full_tokens|]. intros full _.
    by apply returns_ret.
  - destruct (no_suffix item); [|by apply returns_ret].
    eapply returns_bind; [apply returns_compute_partial_tokens|]. intros tokens _.
    apply returns_ret. simpl. by rewrite add_place_names.
  - destruct (_ && _ && _); [|by apply returns_ret].
    eapply returns_bind; [apply returns_compute_partial_tokens|]. intros tokens _.
    by apply returns_ret.
  - destruct (_ && _ && _); [|by apply returns_ret].
    eapply returns_bind; [apply returns_compute_partial_tokens|]. intros tokens _.
    by apply returns_ret.
Qed.

(** Address processing always returns and leaves the [names] field alone. *)
Lemma returns_process_place_address token_info address :
  returns_with (_process_place_address token_info address)
    (λ data, data !! "names" = token_info !! "names").
Proof.
  unfold _process_place_address.
  eapply returns_bind.
  { apply (returns_for_each _ (λ acc, acc_data acc !! "names" = token_info !! "names")).
    - intros acc item. apply returns_process_address_item.
    - done. }
  intros acc Hacc.
  eapply (returns_bind _ _ (λ data, data !! "names" = token_info !! "names")).
  { destruct (acc_hnrs acc) as [|hnr0 rest]; [by apply returns_ret|].
    destruct (split_housenumbers_Ok hnr0 rest) as [l ->].
    eapply returns_bind; [by apply (returns_ret l (λ _, True))|]. intros hnrs _.
    eapply returns_weaken; [apply returns_add_housenumbers|]. intros d ->. done. }
  intros data Hdata. apply returns_ret.
  destruct (acc_addr_terms acc), (acc_streets acc);
    by rewrite ?add_street_names, ?add_address_terms_names.
Qed.



(** ** Analysis modules *)

(** [get_analyzer] falls back to the default module. *)
Lemma get_analyzer_default default key :
  analysis token_analysis !! None = Some default →
  analysis token_analysis !! key = None →
  get_analyzer token_analysis key = Ok default.
Proof. unfold get_analyzer. by intros -> ->. Qed.

Lemma get_analyzer_returns default key :
  analysis token_analysis !! None = Some default →
  ∃ a, get_analyzer token_analysis key = Ok a.
Proof.
  unfold get_analyzer. intros ->.
  destruct (analysis token_analysis !! key); by eexists.
Qed.

(** [_compute_name_tokens] does not: a name outside the cache whose
    analyzer key has no module raises [KeyError]. *)
Lemma compute_name_step_unmapped acc n s :
  names (_cache s) !! dispatch_key n = None →
  analysis token_analysis !! get_attr n "analyzer" = None →
  compute_name_step acc n s = (Raise KeyError, s).
Proof.
  unfold compute_name_step, dispatch_key. destruct acc. unfold_M. simpl.
  by intros -> ->.
Qed.


(** * Further properties of the analyzer *)

(** ** Postcodes once more *)

(** X1: two spellings of a postcode with the same normalized form count as
    one: once the first has been handled, handling the second changes
    nothing and sends nothing. *)
Theorem add_postcode_same_normal_form p1 p2 s :
  Py.re_search_class postcode_separator p1 = false →
  normalize_postcode p1 = normalize_postcode p2 →
  ∃ s1, _add_postcode p1 s = (Ok (), s1) ∧ _add_postcode p2 s1 = (Ok (), s1).
Proof.
  intros Hsep Heq. unfold _add_postcode. rewrite Hsep, <- Heq. simpl. unfold_M.
  destruct (decide (normalize_postcode p1 ∈ postcodes (_cache s))) as [Hin|Hin].
  - exists s. split; [done|].
    destruct (negb (Py.re_search_class postcode_separator p2)); [|done].
    by rewrite decide_True.
  - destruct (Py.truthy (_search_normalized (normalize_postcode p1))) eqn:Ht; simpl.
    + eexists. split; [done|]. simpl.
      destruct (negb (Py.re_search_class postcode_separator p2)); [|done].
      rewrite decide_True; [done|set_solver].
    + exists s. split; [done|].
      destruct (negb (Py.re_search_class postcode_separator p2)); [|done].
      by rewrite decide_False.
Qed.

Lemma insert_postcode_cases db term postcode :
  (insert_postcode db term postcode = db
   ∧ ∃ r, r ∈ db ∧ type r = "P" ∧ word r = Some postcode)
  ∨ (insert_postcode db term postcode
       = db ++ [{| word_id := None; word_token := term; type := "P";
                   word := Some postcode; info := None |}]
     ∧ ∀ r, r ∈ db → type r = "P" → word r ≠ Some postcode).
Proof.
  unfold insert_postcode. destruct (existsb _ db) eqn:E.
  - left. split; [done|].
    apply existsb_exists in E as (r & Hin & Hr).
    apply andb_true_iff in Hr as [H1 H2]. apply bool_decide_eq_true in H1, H2.
    exists r. by rewrite <- list_elem_of_In in Hin.
  - right. split; [done|]. intros r Hin Ht Hw.
    assert (existsb (λ r, bool_decide (type r = "P")
                          && bool_decide (word r = Some postcode)) db = true) as E'.
    { apply existsb_exists. exists r. rewrite <- list_elem_of_In.
      split; [done|]. by rewrite !bool_decide_eq_true_2. }
    congruence.
Qed.

(** X2: a postcode adds at most one row, of type [P], holding the
    normalized postcode and its search form, and only when no postcode row
    has that postcode yet; so a table with one row per postcode stays one. *)
Theorem add_postcode_keeps_rows_unique postcode s :
  ∃ s', _add_postcode postcode s = (Ok (), s')
    ∧ (conn s' = conn s
       ∨ ∃ row, conn s' = conn s ++ [row] ∧ type row = "P"
                ∧ word row = Some (normalize_postcode postcode)
                ∧ word_token row = _search_normalized (normalize_postcode postcode)
                ∧ Py.truthy (word_token row) = true
                ∧ ∀ r, r ∈ conn s → type r = "P" → word r ≠ word row)
    ∧ (NoDup (word <$> filter (λ r, type r = "P") (conn s)) →
       NoDup (word <$> filter (λ r, type r = "P") (conn s'))).
Proof.
  unfold _add_postcode.
  destruct (negb (Py.re_search_class postcode_separator postcode));
    [|exists s; unfold_M; auto].
  simpl. unfold_M.
  destruct (decide (_ ∈ _)); [exists s; auto|].
  destruct (Py.truthy _) eqn:Ht; simpl; [|exists s; auto].
  eexists. split; [done|]. simpl.
  destruct (insert_postcode_cases (conn s)
              (_search_normalized (normalize_postcode postcode))
              (normalize_postcode postcode)) as [[-> _]|[-> Hnew]]; [auto|].
  split.
  - right. eexists. split; [done|]. by repeat split.
  - intros Hnd. rewrite filter_app, fmap_app.
    rewrite (filter_cons_True _ _ []) by done. rewrite filter_nil.
    apply NoDup_app. split; [done|]. split; [|apply NoDup_singleton].
    intros w Hw ->%list_elem_of_singleton.
    apply list_elem_of_fmap in Hw as (r & Hr & [Hin Htype]%list_elem_of_filter).
    by eapply Hnew.
Qed.

(** ** Streets once more *)


(** ** House numbers once more *)

Lemma re_search_class_lstrip cls s :
  Py.re_search_class cls s = false → Py.re_search_class cls (Py.lstrip s) = false.
Proof.
  induction s as [|c s IH]; simpl; [done|].
  intros [Hc Hs]%orb_false_iff. destruct (Py.isspace c); [auto|].
  simpl. by rewrite Hc, Hs.
Qed.

Lemma re_search_class_rstrip cls s :
  Py.re_search_class cls s = false → Py.re_search_class cls (Py.rstrip s) = false.
Proof.
  induction s as [|c s IH]; simpl; [done|].
  intros [Hc Hs]%orb_false_iff. specialize (IH Hs).
  destruct (Py.rstrip s) as [|d r]; simpl.
  - destruct (Py.isspace c); simpl; [done|]. by rewrite Hc.
  - simpl in IH. by rewrite Hc, IH.
Qed.

Lemma hnr_pieces_no_separator hnrs x :
  x ∈ hnr_pieces hnrs → Py.re_search_class hnr_separator x = false.
Proof.
  unfold hnr_pieces. rewrite list_elem_of_bind.
  intros (hnr & (p & -> & Hp)%list_elem_of_fmap & _).
  apply re_search_class_rstrip, re_search_class_lstrip.
  by eapply re_split_class_pieces.
Qed.

Lemma hnr_pieces_nonempty hnr0 rest : hnr_pieces (hnr0 :: rest) ≠ [].
Proof.
  unfold hnr_pieces. rewrite bind_cons.
  pose proof (re_split_class_nonempty hnr_separator hnr0).
  by destruct (Py.re_split_class hnr_separator hnr0).
Qed.

(** X4: for a non-empty list of raw house numbers the result is a non-empty
    list, and no house number in it holds a [,] or a [;]. The empty list
    raises [IndexError]. *)
Theorem split_housenumbers_no_separator_left :
  (∀ hnr0 rest,
     ∃ l, _split_housenumbers (hnr0 :: rest) = Ok l ∧ l ≠ []
          ∧ ∀ x, x ∈ l → Py.re_search_class hnr_separator x = false)
  ∧ _split_housenumbers [] = Raise IndexError.
Proof.
  split; [|done]. intros hnr0 rest.
  unfold _split_housenumbers. cbv beta iota. fold (hnr_pieces (hnr0 :: rest)).
  case_bool_decide as Hlen; cbn [orb].
  - case_bool_decide.
    + eexists. split; [done|]. split.
      * intros He. apply elements_empty_inv in He.
        pose proof (hnr_pieces_nonempty hnr0 rest).
        destruct (hnr_pieces (hnr0 :: rest)) as [|p ps]; [done|]. set_solver.
      * intros x. rewrite elem_of_elements, elem_of_list_to_set.
        apply hnr_pieces_no_separator.
    + eexists. split; [done|].
      split; [apply hnr_pieces_nonempty|apply hnr_pieces_no_separator].
  - destruct rest; [|simpl in Hlen; lia].
    rewrite contains_separator.
    destruct (Py.re_search_class hnr_separator hnr0) eqn:Hs.
    + case_bool_decide.
      * eexists. split; [done|]. split.
        -- intros He. apply elements_empty_inv in He.
           pose proof (hnr_pieces_nonempty hnr0 []).
           destruct (hnr_pieces [hnr0]) as [|p ps]; [done|]. set_solver.
        -- intros x. rewrite elem_of_elements, elem_of_list_to_set.
           apply hnr_pieces_no_separator.
      * eexists. split; [done|].
        split; [apply hnr_pieces_nonempty|apply hnr_pieces_no_separator].
    + exists [hnr0]. split; [done|]. split; [done|].
      by intros x ->%list_elem_of_singleton.
Qed.

(** ** Address terms *)

Lemma address_terms_fold terms : ∀ d0 : gmap string string,
  let d := foldl (λ (d : gmap string string) '(key, partials_),
                    match partials_ with
                    | [] => d
                    | _ => <[key := _mk_array partials_]> d
                    end) d0 terms in
  ∀ k, is_Some (d !! k) ↔
       is_Some (d0 !! k)
       ∨ ∃ tokens : list Z, (k, tokens) ∈ terms ∧ tokens ≠ [].
Proof.
  induction terms as [|[key toks] terms IH]; intros d0 d k; simpl in d.
  { subst d. set_solver. }
  subst d. rewrite IH. setoid_rewrite elem_of_cons.
  destruct toks as [|t toks].
  - split; [naive_solver|]. intros [?|(tokens & [[= -> ->]|?] & ?)]; eauto.
    done.
  - rewrite lookup_insert_is_Some. split.
    + intros [[<-|[? ?]]|(tokens & ? & ?)]; eauto.
    + intros [?|(tokens & [[= -> ->]|?] & ?)]; eauto.
      destruct (decide (key = k)); auto.
Qed.

Lemma add_address_terms_keys_aux data terms :
  ∃ d : gmap string string,
    (∀ k, is_Some (d !! k) ↔ ∃ tokens : list Z, (k, tokens) ∈ terms ∧ tokens ≠ [])
    ∧ add_address_terms data terms
      = if decide (d = ∅) then data else <["addr" := VDict d]> data.
Proof.
  unfold add_address_terms. eexists. split; [|done].
  intros k. rewrite (address_terms_fold terms ∅ k).
  rewrite lookup_empty. split; [intros [[? [=]]|?]; done|auto].
Qed.

(** X5: the [addr] field holds exactly the kinds that come with a non-empty
    token list; if there is none, the token info is left as it is. *)
Theorem add_address_terms_keys data terms :
  ∃ d : gmap string string,
    (∀ k, is_Some (d !! k) ↔ ∃ tokens : list Z, (k, tokens) ∈ terms ∧ tokens ≠ [])
    ∧ add_address_terms data terms
      = if decide (d = ∅) then data else <["addr" := VDict d]> data.
Proof.
  unfold add_address_terms. eexists. split; [|done].
  intros k. rewrite (address_terms_fold terms ∅ k).
  rewrite lookup_empty. split; [intros [[? [=]]|?]; done|auto].
Qed.

(** ** Country names once more *)

Lemma elem_of_country_word_tokens names_ t :
  t ∈ country_word_tokens names_ ↔
  ∃ n, n ∈ names_ ∧ _search_normalized (name n) = t ∧ Py.truthy t = true.
Proof.
  unfold country_word_tokens.
  enough (∀ acc : gset string,
            t ∈ foldl (λ (word_tokens : gset string) n,
                         let norm_name := _search_normalized (name n) in
                         if Py.truthy norm_name
                         then word_tokens ∪ {[ norm_name ]} else word_tokens)
                      acc names_
            ↔ t ∈ acc ∨ ∃ n, n ∈ names_ ∧ _search_normalized (name n) = t
                              ∧ Py.truthy t = true) as H.
  { rewrite H. set_solver. }
  induction names_ as [|n rest IH]; intros acc; simpl.
  { set_solver. }
  rewrite IH. setoid_rewrite elem_of_cons.
  destruct (Py.truthy (_search_normalized (name n))) eqn:Ht.
  - rewrite elem_of_union, elem_of_singleton. naive_solver.
  - split; [naive_solver|].
    intros [?|(m & [->|?] & <- & ?)]; [auto|congruence|right; eauto].
Qed.

(** X6: after the names of a country have been registered, each name with a
    non-empty search form is among the tokens of that country. When no
    name has one, the table is read and nothing else happens. *)
Theorem add_country_full_names_registers cc names_ s :
  ∃ s1,
    _add_country_full_names cc names_ s = (Ok (), s1)
    ∧ (∀ n, n ∈ names_ → Py.truthy (_search_normalized (name n)) = true →
         _search_normalized (name n) ∈ select_country_tokens (conn s1) cc)
    ∧ ((∀ n, n ∈ names_ → Py.truthy (_search_normalized (name n)) = false) →
       s1 = {| conn := conn s; _cache := _cache s;
               statements := statements s ++ [SelectCountryTokens cc] |}).
Proof.
  eexists. split; [apply add_country_full_names_run|]. simpl. split.
  - intros n Hn Ht.
    rewrite select_country_tokens_app, select_country_tokens_rows, elem_of_app.
    destruct (decide (_search_normalized (name n)
                      ∈ select_country_tokens (conn s) cc)); [by left|].
    right. rewrite elem_of_elements, elem_of_difference, elem_of_list_to_set.
    split; [|done]. apply elem_of_country_word_tokens. eauto.
  - intros Hall.
    assert (country_word_tokens names_ = ∅) as ->.
    { apply set_eq. intros t. rewrite elem_of_country_word_tokens.
      split; [|set_solver]. intros (n & Hn & <- & Ht). rewrite Hall in Ht; done. }
    assert ((∅ : gset string) ∖ list_to_set (select_country_tokens (conn s) cc) = ∅)
      as -> by set_solver.
    rewrite elements_empty. simpl. by rewrite app_nil_r.
Qed.

(** ** Special phrases once more *)

Lemma filter_filter_weaker {A} (P Q : A → Prop) `{∀ x, Decision (P x)}
    `{∀ x, Decision (Q x)} (l : list A) :
  (∀ x, P x → Q x) → filter P (filter Q l) = filter P l.
Proof.
  intros HPQ. induction l as [|x l IH]; [done|].
  destruct (decide (Q x)) as [HQ|HQ].
  - rewrite (filter_cons_True Q) by done.
    destruct (decide (P x)).
    + rewrite !(filter_cons_True P) by done. by rewrite IH.
    + rewrite !(filter_cons_False P) by done. done.
  - rewrite (filter_cons_False Q) by done.
    rewrite (filter_cons_False P) by auto. done.
Qed.

Lemma filter_none {A} (P : A → Prop) `{∀ x, Decision (P x)} (l : list A) :
  Forall (λ x, ¬ P x) l → filter P l = [].
Proof.
  induction 1 as [|x l Hx Hl IH]; [done|]. by rewrite filter_cons_False.
Qed.

Lemma filter_all {A} (P : A → Prop) `{∀ x, Decision (P x)} (l : list A) :
  Forall P l → filter P l = l.
Proof.
  induction 1 as [|x l Hx Hl IH]; [done|]. rewrite filter_cons_True by done.
  by rewrite IH.
Qed.

Lemma delete_matches_type r v : delete_matches r v = true → type r = "S".
Proof.
  unfold delete_matches. destruct v as [[[[name_|] c] t] op]; [|done].
  destruct (word r); [|done]. destruct (info r); [|done].
  rewrite !andb_true_iff, bool_decide_eq_true. tauto.
Qed.

(** Deleting phrase rows and appending phrase rows leaves the other rows. *)
Lemma phrase_rows_only (db rows : list word_row) (to_delete : list phrase) (b : bool) :
  Forall (λ r, type r = "S") rows →
  filter (λ r, type r ≠ "S")
    (if b then filter (λ r, ¬ existsb (delete_matches r) to_delete) (db ++ rows)
     else db ++ rows)
  = filter (λ r, type r ≠ "S") db.
Proof.
  intros HS.
  assert (filter (λ r, type r ≠ "S") (db ++ rows) = filter (λ r, type r ≠ "S") db)
    as Happ.
  { rewrite filter_app, (filter_none _ rows), app_nil_r; [done|].
    eapply Forall_impl; [exact HS|]. intros r Hr Hn. done. }
  destruct b; [|done].
  rewrite filter_filter_weaker; [done|].
  intros r Hr Hm. apply Hr.
  apply Is_true_true in Hm. apply existsb_exists in Hm as (v & _ & Hv).
  by eapply delete_matches_type.
Qed.

Lemma read_existing_phrases_rows db E :
  read_existing_phrases (select_special_phrases db) ∅ = Ok E →
  ∀ t, t ∈ E ↔ ∃ r, r ∈ db ∧ type r = "S" ∧ phrase_of_row r = Some t.
Proof.
  forget_db.
  intros HE t. rewrite (read_existing_phrases_Ok _ _ _ HE t). unfold phrase_of_row.
  split.
  - intros [?|(w & i & (r & ? & ? & <- & Hi)%elem_of_select_special_phrases & ->)];
      [set_solver|].
    exists r. by rewrite Hi.
  - intros (r & ? & ? & Hr). right. destruct (info r) as [i|] eqn:Hi; [|done].
    injection Hr as <-. exists (word r), i. split; [|done].
    apply elem_of_select_special_phrases. by exists r.
Qed.

Lemma read_existing_phrases_returns db :
  (∀ r, r ∈ db → type r = "S" → is_Some (info r)) →
  ∃ E, read_existing_phrases (select_special_phrases db) ∅ = Ok E.
Proof.
  forget_db.
  intros Hall. destruct (read_existing_phrases _ _) as [E|e] eqn:HE; [by eexists|].
  apply read_existing_phrases_Raise in HE as [w Hw].
  apply elem_of_select_special_phrases in Hw as (r & Hr & Ht & _ & Hi).
  destruct (Hall r Hr Ht) as [? ?]. congruence.
Qed.

Lemma op_or_dash_matches (o : option string) (op : string) :
  o ≠ Some "" →
  op_or_dash o = op ↔ (op = "-" ∧ o = None) ∨ o = Some op.
Proof.
  unfold op_or_dash. destruct o as [[|c o]|]; simpl; [done| |]; naive_solver.
Qed.

Lemma delete_matches_phrase r i v :
  type r = "S" → is_Some (word r) → info r = Some i → info_op i ≠ Some "" →
  delete_matches r v = true ↔ phrase_of_row r = Some v.
Proof.
  intros Ht [w Hw] Hi Hop. unfold delete_matches, phrase_of_row. rewrite Hw, Hi.
  destruct v as [[[[name_|] c] t] op]; [|split; [done|intros [=]]].
  rewrite !andb_true_iff, orb_true_iff, andb_true_iff, !bool_decide_eq_true.
  pose proof (op_or_dash_matches (info_op i) op Hop). split.
  - intros ((((_ & ->) & ->) & ->) & Ho). do 2 f_equal. by apply H.
  - intros [= -> -> -> Ho]. repeat split; try done. by apply H.
Qed.

Lemma phrase_of_special_phrase_row term w cls typ op :
  known_operator op →
  phrase_of_row (special_phrase_row term w cls typ op) = Some (Some w, cls, typ, op).
Proof. by intros [->|[->| ->]]. Qed.

Lemma special_phrase_row_well_formed term w cls typ op :
  phrase_rows_well_formed [special_phrase_row term w cls typ op].
Proof.
  intros r ->%list_elem_of_singleton _. split; [by eexists|].
  eexists. split; [done|]. simpl.
  destruct (bool_decide (op = "in")) eqn:E1; simpl.
  - apply bool_decide_eq_true in E1 as ->. done.
  - destruct (bool_decide (op = "near")) eqn:E2; [|done].
    apply bool_decide_eq_true in E2 as ->. done.
Qed.

Lemma norm_phrases_known phrases (t : phrase) :
  (∀ text cls typ op, (text, cls, typ, op) ∈ phrases → known_operator op) →
  t ∈ norm_phrases_of phrases → known_operator t.2.
Proof.
  intros Hk (text & cls & typ & op & Hin & ->)%elem_of_norm_phrases_of. eauto.
Qed.

(** What the table holds after a synchronization, in terms of what it held
    before. *)
Lemma update_special_phrases_read_back phrases should_replace s E :
  read_existing_phrases (select_special_phrases (conn s)) ∅ = Ok E →
  (∀ text cls typ op, (text, cls, typ, op) ∈ phrases → known_operator op) →
  (should_replace = true → phrase_rows_well_formed (conn s)) →
  ∃ E' rows s',
    update_special_phrases phrases should_replace s =
      (Ok (Z.of_nat (size (norm_phrases_of phrases)), Z.of_nat (length rows),
           if should_replace
           then Z.of_nat (size (E ∖ norm_phrases_of phrases)) else 0), s')
    ∧ (∀ r, r ∈ rows ↔
            ∃ w cls typ op,
              (Some w, cls, typ, op) ∈ norm_phrases_of phrases ∖ E
              ∧ Py.truthy (_search_normalized w) = true
              ∧ r = special_phrase_row (_search_normalized w) w cls typ op)
    ∧ read_existing_phrases (select_special_phrases (conn s')) ∅ = Ok E'
    ∧ (should_replace = true → phrase_rows_well_formed (conn s'))
    ∧ (∀ t, t ∈ E' ↔
            (t ∈ E ∧ (should_replace = true → t ∈ norm_phrases_of phrases))
            ∨ (t ∈ norm_phrases_of phrases ∧ (t ∉ E) ∧ storable t))
    ∧ (rows = [] →
       (should_replace = true → E ∖ norm_phrases_of phrases = ∅) →
       conn s' = conn s).
Proof.
  forget_db. intros HE Hknown Hwf.
  destruct (update_special_phrases_run phrases should_replace s E HE)
    as (rows & Hrows & HS & Hrun).
  set (N := norm_phrases_of phrases) in *.
  setoid_rewrite elem_of_elements in Hrows.
  (* the rows written and the tuples they are read back as *)
  assert (∀ r, r ∈ rows → type r = "S" ∧ is_Some (word r)
                          ∧ (∃ i, info r = Some i ∧ info_op i ≠ Some "")
                          ∧ ∃ t, phrase_of_row r = Some t
                                 ∧ t ∈ N ∧ (t ∉ E) ∧ storable t) as Hnew.
  { intros r (w & c & ty & op & [HN HnE]%elem_of_difference & Ht & ->)%Hrows.
    split; [done|].
    destruct (special_phrase_row_well_formed (_search_normalized w) w c ty op
                (special_phrase_row (_search_normalized w) w c ty op)) as [? ?];
      [by left|done|].
    split; [done|]. split; [done|].
    exists (Some w, c, ty, op). split; [|done].
    apply phrase_of_special_phrase_row.
    apply (norm_phrases_known phrases (Some w, c, ty, op) Hknown HN). }
  assert (∀ t, t ∈ N → t ∉ E → storable t →
               ∃ r, r ∈ rows ∧ phrase_of_row r = Some t) as Hnew'.
  { intros [[[[w|] c] ty] op] HN HnE Hst; [|done].
    exists (special_phrase_row (_search_normalized w) w c ty op). split.
    - apply Hrows. exists w, c, ty, op. split; [by apply elem_of_difference|done].
    - apply phrase_of_special_phrase_row.
      apply (norm_phrases_known phrases (Some w, c, ty, op) Hknown HN). }
  pose proof (read_existing_phrases_rows _ _ HE) as HErows.
  destruct (should_replace && bool_decide (E ∖ N ≠ ∅)) eqn:Hdel.
  - (* rows are deleted *)
    apply andb_true_iff in Hdel as [-> Hne]. specialize (Hwf eq_refl).
    assert (phrase_rows_well_formed (conn s ++ rows)) as Hwf2.
    { intros r [Hr|Hr]%elem_of_app Ht; [by apply Hwf|].
      destruct (Hnew r Hr) as (_ & ? & ? & _). done. }
    assert (∀ r, r ∈ conn s ++ rows → type r = "S" →
              (Is_true (existsb (delete_matches r) (elements (E ∖ N)))
               ↔ ∃ t, phrase_of_row r = Some t ∧ t ∈ E ∖ N)) as Hmatch.
    { intros r Hr Ht. destruct (Hwf2 r Hr Ht) as (Hw & i & Hi & Hop).
      rewrite Is_true_true, existsb_exists. setoid_rewrite <- list_elem_of_In.
      setoid_rewrite elem_of_elements.
      setoid_rewrite (delete_matches_phrase r i _ Ht Hw Hi Hop). naive_solver. }
    set (db' := filter (λ r, ¬ existsb (delete_matches r) (elements (E ∖ N)))
                       (conn s ++ rows)) in *.
    assert (phrase_rows_well_formed db') as Hwf3.
    { intros r [_ Hr]%list_elem_of_filter Ht. by apply Hwf2. }
    destruct (read_existing_phrases_returns db') as [E' HE'].
    { intros r Hr Ht. destruct (Hwf3 r Hr Ht) as (_ & i & -> & _). by eexists. }
    exists E', rows. eexists. split; [exact Hrun|]. split; [done|]. simpl.
    split; [done|]. split; [done|]. split.
    + intros t. rewrite (read_existing_phrases_rows _ _ HE' t).
      subst db'. setoid_rewrite list_elem_of_filter. split.
      * intros (r & [Hnm Hr] & Ht & Hp).
        assert (t ∉ E ∖ N) as HnD.
        { intros HD. apply Hnm, Hmatch; [done..|]. eauto. }
        apply elem_of_app in Hr as [Hr|Hr].
        -- left. assert (t ∈ E) by (apply HErows; eauto).
           split; [done|]. intros _.
           destruct (decide (t ∈ N)); [done|]. exfalso. apply HnD. set_solver.
        -- right. destruct (Hnew r Hr) as (_ & _ & _ & t' & Hp' & ?).
           rewrite Hp in Hp'. by injection Hp' as <-.
      * intros [[HtE HtN]|(HtN & HtE & Hst)].
        -- apply HErows in HtE as (r & Hr & Ht & Hp). exists r.
           split; [|done]. split; [|apply elem_of_app; by left].
           intros (t' & Hp' & HD)%Hmatch; [|apply elem_of_app; by left|done].
           rewrite Hp in Hp'. injection Hp' as <-.
           apply elem_of_difference in HD as [_ HD]. by apply HD, HtN.
        -- destruct (Hnew' t HtN HtE Hst) as (r & Hr & Hp). exists r.
           destruct (Hnew r Hr) as (Ht & _).
           split; [|done]. split; [|apply elem_of_app; by right].
           intros (t' & Hp' & HD)%Hmatch; [|apply elem_of_app; by right|done].
           rewrite Hp in Hp'. injection Hp' as <-.
           apply elem_of_difference in HD as [_ HD]. by apply HD.
    + intros _ Hempty. apply bool_decide_eq_true in Hne. by destruct Hne; auto.
  - (* nothing is deleted *)
    assert (∀ r, r ∈ conn s ++ rows → type r = "S" → is_Some (info r)) as Hinfo.
    { intros r [Hr|Hr]%elem_of_app Ht.
      - destruct (info r) as [i|] eqn:Hi; [by eexists|].
        assert ((word r, None) ∈ select_special_phrases (conn s)) as Hsel
          by (apply elem_of_select_special_phrases; by exists r).
        clear -HE Hsel. exfalso. revert HE. generalize (∅ : gset phrase).
        induction (select_special_phrases (conn s)) as [|[w [j|]] l IH];
          intros acc; simpl; [by apply elem_of_nil in Hsel| |done].
        apply elem_of_cons in Hsel as [[=]|Hsel]. by apply IH.
      - destruct (Hnew r Hr) as (_ & _ & (i & -> & _) & _). by eexists. }
    destruct (read_existing_phrases_returns (conn s ++ rows) Hinfo) as [E' HE'].
    exists E', rows. eexists. split; [exact Hrun|]. split; [done|]. simpl.
    split; [done|]. split.
    { intros ->. specialize (Hwf eq_refl).
      intros r [Hr|Hr]%elem_of_app Ht; [by apply Hwf|].
      destruct (Hnew r Hr) as (_ & ? & ? & _). done. }
    split.
    + intros t. rewrite (read_existing_phrases_rows _ _ HE' t).
      assert (should_replace = true → E ∖ N = ∅) as HD.
      { intros ->. simpl in Hdel. apply bool_decide_eq_false in Hdel.
        destruct (decide (E ∖ N = ∅)); [done|]. by destruct Hdel. }
      split.
      * intros (r & [Hr|Hr]%elem_of_app & Ht & Hp).
        -- left. assert (t ∈ E) by (apply HErows; eauto).
           split; [done|]. intros Hrep. specialize (HD Hrep).
           destruct (decide (t ∈ N)); [done|]. set_solver.
        -- right. destruct (Hnew r Hr) as (_ & _ & _ & t' & Hp' & ?).
           rewrite Hp in Hp'. by injection Hp' as <-.
      * intros [[HtE _]|(HtN & HtE & Hst)].
        -- apply HErows in HtE as (r & Hr & Ht & Hp). exists r.
           split; [apply elem_of_app; by left|done].
        -- destruct (Hnew' t HtN HtE Hst) as (r & Hr & Hp). exists r.
           destruct (Hnew r Hr) as (Ht & _).
           split; [apply elem_of_app; by right|done].
    + intros -> _. by rewrite app_nil_r.
Qed.

(** X7: a synchronization of the special phrases, replacing or not,
    returning or raising, leaves every row that is not a special phrase
    where it was. *)
Theorem update_special_phrases_other_rows phrases should_replace s :
  filter (λ r, type r ≠ "S")
    (conn (update_special_phrases phrases should_replace s).2)
  = filter (λ r, type r ≠ "S") (conn s).
Proof.
  destruct (read_existing_phrases (select_special_phrases (conn s)) ∅)
    as [E|e] eqn:HE.
  - destruct (update_special_phrases_run phrases should_replace s E HE)
      as (rows & _ & HS & ->). simpl.
    by apply phrase_rows_only.
  - unfold update_special_phrases. unfold_M. simpl. by rewrite HE.
Qed.

Lemma well_formed_rows_have_info db :
  phrase_rows_well_formed db → ∀ r, r ∈ db → type r = "S" → is_Some (info r).
Proof. intros Hwf r Hr Ht. destruct (Hwf r Hr Ht) as (_ & i & -> & _). by eexists. Qed.

(** X8: a replacing synchronization makes the table agree with the list.
    With operators among [in], [near], [-] and a table whose phrase rows
    are well formed, the phrases read back afterwards are those of the
    list, except the ones that have an empty search form and were not in
    the table before. *)
Theorem update_special_phrases_replace_round_trip phrases s :
  (∀ text cls typ op, (text, cls, typ, op) ∈ phrases → known_operator op) →
  phrase_rows_well_formed (conn s) →
  ∃ result s' E',
    update_special_phrases phrases true s = (Ok result, s')
    ∧ read_existing_phrases (select_special_phrases (conn s')) ∅ = Ok E'
    ∧ ∀ t, t ∈ E' ↔
           t ∈ norm_phrases_of phrases
           ∧ (storable t
              ∨ ∃ r, r ∈ conn s ∧ type r = "S" ∧ phrase_of_row r = Some t).
Proof.
  forget_db. intros Hknown Hwf.
  destruct (read_existing_phrases_returns (conn s)
              (well_formed_rows_have_info _ Hwf)) as [E HE].
  destruct (update_special_phrases_read_back phrases true s E HE Hknown (λ _, Hwf))
    as (E' & rows & s' & Hrun & _ & HE' & _ & Hchar & _).
  eexists _, s', E'. split; [exact Hrun|]. split; [exact HE'|].
  intros t. rewrite Hchar, <- (read_existing_phrases_rows _ _ HE t).
  destruct (decide (t ∈ E)); naive_solver.
Qed.

(** X9: synchronizing twice with the same list and the same flag: the
    second run adds nothing, deletes nothing and leaves the table as the
    first run left it. *)
Theorem update_special_phrases_twice phrases should_replace s E :
  read_existing_phrases (select_special_phrases (conn s)) ∅ = Ok E →
  (∀ text cls typ op, (text, cls, typ, op) ∈ phrases → known_operator op) →
  (should_replace = true → phrase_rows_well_formed (conn s)) →
  ∃ result s1 s2,
    update_special_phrases phrases should_replace s = (Ok result, s1)
    ∧ update_special_phrases phrases should_replace s1
      = (Ok (Z.of_nat (size (norm_phrases_of phrases)), 0, 0), s2)
    ∧ conn s2 = conn s1.
Proof.
  forget_db. intros HE Hknown Hwf.
  destruct (update_special_phrases_read_back phrases should_replace s E HE Hknown Hwf)
    as (E1 & rows & s1 & Hrun & _ & HE1 & Hwf1 & Hchar & _).
  destruct (update_special_phrases_read_back phrases should_replace s1 E1 HE1
              Hknown Hwf1)
    as (E2 & rows2 & s2 & Hrun2 & Hrows2 & _ & _ & _ & Hsame).
  assert (rows2 = []) as ->.
  { destruct rows2 as [|r rows2]; [done|]. exfalso.
    destruct (proj1 (Hrows2 r)) as (w & c & ty & op & [HN HnE]%elem_of_difference & Ht & _);
      [by left|].
    apply HnE, Hchar. destruct (decide ((Some w, c, ty, op) ∈ E)); [|by right].
    left. auto. }
  assert (should_replace = true → E1 ∖ norm_phrases_of phrases = ∅) as HD.
  { intros Hrep. apply set_eq. intros t. rewrite elem_of_difference, Hchar.
    split; [|set_solver]. intros [[[_ HN]|[HN _]] HnN]; exfalso; auto. }
  eexists _, s1, s2. split; [exact Hrun|]. split; [|by apply Hsame].
  rewrite Hrun2. simpl. destruct should_replace; [|done].
  by rewrite HD, size_empty.
Qed.

(** X10: the empty list. With the replace flag every well-formed phrase row
    goes, and the number of deletions is the number of phrases that were
    stored; without the flag the table stays as it is. *)
Theorem update_special_phrases_empty_list s E :
  read_existing_phrases (select_special_phrases (conn s)) ∅ = Ok E →
  (∃ s', update_special_phrases [] false s = (Ok (0, 0, 0), s')
         ∧ conn s' = conn s)
  ∧ (phrase_rows_well_formed (conn s) →
     ∃ s', update_special_phrases [] true s
           = (Ok (0, 0, Z.of_nat (size E)), s')
           ∧ conn s' = filter (λ r, type r ≠ "S") (conn s)).
Proof.
  forget_db. intros HE.
  assert (∀ text cls typ op,
            (text, cls, typ, op) ∈ ([] : list (string * string * string * string)) →
            known_operator op) as Hknown by (intros ???? []%elem_of_nil).
  assert (norm_phrases_of [] = ∅) as HN by done.
  split.
  - destruct (update_special_phrases_read_back [] false s E HE Hknown)
      as (E1 & rows & s1 & Hrun & Hrows & _ & _ & _ & Hsame); [done|].
    assert (rows = []) as ->.
    { destruct rows as [|r rows]; [done|]. exfalso.
      destruct (proj1 (Hrows r)) as (w & c & ty & op & HD & _); [by left|].
      rewrite HN in HD. set_solver. }
    exists s1. split; [exact Hrun|]. by apply Hsame.
  - intros Hwf.
    destruct (update_special_phrases_read_back [] true s E HE Hknown (λ _, Hwf))
      as (E1 & rows & s1 & Hrun & Hrows & HE1 & Hwf1 & Hchar & _).
    assert (rows = []) as ->.
    { destruct rows as [|r rows]; [done|]. exfalso.
      destruct (proj1 (Hrows r)) as (w & c & ty & op & HD & _); [by left|].
      rewrite HN in HD. set_solver. }
    exists s1. rewrite Hrun, HN, difference_empty_L. split; [done|].
    assert (filter (λ r, type r ≠ "S") (conn s1) = filter (λ r, type r ≠ "S") (conn s))
      as <-.
    { destruct (update_special_phrases_run [] true s E HE) as (rows & _ & HS & Hrun').
      rewrite Hrun' in Hrun. injection Hrun as _ <-. simpl.
      by apply phrase_rows_only. }
    symmetry. apply filter_all, Forall_forall.
    intros r Hr Ht. specialize (Hwf1 eq_refl r Hr Ht) as (_ & i & Hi & _).
    assert (∃ t, t ∈ E1) as [t Ht1].
    { eexists. apply (read_existing_phrases_rows _ _ HE1). exists r.
      split; [done|]. split; [done|]. unfold phrase_of_row. by rewrite Hi. }
    apply Hchar in Ht1. rewrite HN in Ht1. set_solver.
Qed.

(** ** Partial tokens *)

Lemma length_filter_split {A} (P : A → Prop) `{∀ x, Decision (P x)} (l : list A) :
  (length (filter P l) + length (filter (λ x, ¬ P x) l) = length l)%nat.
Proof.
  induction l as [|x l IH]; [done|]. destruct (decide (P x)).
  - rewrite filter_cons_True, (filter_cons_False (λ x, ¬ P x)) by auto. simpl. lia.
  - rewrite filter_cons_False, (filter_cons_True (λ x, ¬ P x)) by auto. simpl. lia.
Qed.

Lemma split_cached_partials_eq partials_ words :
  split_cached_partials partials_ words
  = ((λ w, default 0 (partials_ !! w))
       <$> filter (λ w, partial_cached partials_ w = true) words,
     filter (λ w, ¬ partial_cached partials_ w = true) words).
Proof.
  unfold split_cached_partials.
  enough (∀ tokens0 need0,
            foldl (λ '(tokens, need_lookup) partial,
                     match partials_ !! partial with
                     | Some token =>
                         if bool_decide (token = 0)
                         then (tokens, need_lookup ++ [partial])
                         else (tokens ++ [token], need_lookup)
                     | None => (tokens, need_lookup ++ [partial])
                     end) (tokens0, need0) words
            = (tokens0 ++ ((λ w, default 0 (partials_ !! w))
                             <$> filter (λ w, partial_cached partials_ w = true) words),
               need0 ++ filter (λ w, ¬ partial_cached partials_ w = true) words))
    as H by apply (H [] []).
  induction words as [|w words IH]; intros tokens0 need0; simpl.
  { by rewrite !app_nil_r. }
  assert (partial_cached partials_ w
          = match partials_ !! w with
            | Some token => negb (bool_decide (token = 0))
            | None => false
            end) as Hpc by done.
  destruct (partials_ !! w) as [t|] eqn:Hw; [case_bool_decide as Ht|]; simpl in Hpc.
  - rewrite IH, filter_cons_False, (filter_cons_True (λ w, ¬ _)), <- app_assoc
      by (rewrite Hpc; done). done.
  - rewrite IH, filter_cons_True, (filter_cons_False (λ w, ¬ _)), fmap_cons, Hw,
      <- app_assoc by (rewrite Hpc; auto). done.
  - rewrite IH, filter_cons_False, (filter_cons_True (λ w, ¬ _)), <- app_assoc
      by (rewrite Hpc; done). done.
Qed.

Lemma lookup_partial_run tokens partial s :
  let r := getorcreate_partial_word (conn s) partial in
  lookup_partial tokens partial s
  = (Ok (tokens ++ [r.2]),
     {| conn := r.1;
        _cache := set_partials (<[partial := r.2]> (partials (_cache s))) (_cache s);
        statements := statements s |}).
Proof.
  unfold lookup_partial. unfold_M. simpl.
  by destruct (getorcreate_partial_word (conn s) partial).
Qed.

Lemma for_each_lookup_partial need_lookup : ∀ tokens s,
  ∃ tokens' s',
    for_each lookup_partial tokens need_lookup s = (Ok tokens', s')
    ∧ length tokens' = (length tokens + length need_lookup)%nat
    ∧ statements s' = statements s
    ∧ ((∀ db w, (getorcreate_partial_word db w).2 ≠ 0) →
       ∀ w, partial_cached (partials (_cache s)) w = true ∨ w ∈ need_lookup →
            partial_cached (partials (_cache s')) w = true).
Proof.
  induction need_lookup as [|p need_lookup IH]; intros tokens s.
  { exists tokens, s. split; [done|]. split; [simpl; lia|]. split; [done|].
    intros _ w [?|[]%elem_of_nil]. done. }
  simpl. unfold mbind, M_bind. rewrite lookup_partial_run.
  edestruct IH as (tokens' & s' & -> & Hlen & Hst & Hc).
  exists tokens', s'. split; [done|]. split; [|split; [done|]].
  - rewrite Hlen, length_app. simpl. lia.
  - intros Hnz w Hw. apply (Hc Hnz). simpl.
    destruct (decide (p = w)) as [->|Hne].
    + left. unfold partial_cached. rewrite lookup_insert_eq.
      rewrite bool_decide_eq_false_2; [done|apply Hnz].
    + destruct Hw as [Hw|[->|Hw]%elem_of_cons]; [|done|by right].
      left. unfold partial_cached in *. by rewrite lookup_insert_ne.
Qed.

Lemma filter_not_nil_all {A} (P : A → Prop) `{∀ x, Decision (P x)} (l : list A) :
  filter (λ x, ¬ P x) l = [] ↔ ∀ x, x ∈ l → P x.
Proof.
  split.
  - intros Hf x Hx. destruct (decide (P x)); [done|].
    assert (x ∈ filter (λ x, ¬ P x) l) as Hin by (by apply list_elem_of_filter).
    rewrite Hf in Hin. by apply elem_of_nil in Hin.
  - intros Hall. apply filter_none, Forall_forall. intros x Hx Hn. by apply Hn, Hall.
Qed.

(** A name whose words are all served by the cache. *)
Lemma compute_partial_tokens_cached name_ s :
  (∀ w, w ∈ Py.split (_search_normalized name_) →
        partial_cached (partials (_cache s)) w = true) →
  _compute_partial_tokens name_ s
  = (Ok ((λ w, default 0 (partials (_cache s) !! w))
           <$> Py.split (_search_normalized name_)), s).
Proof.
  intros Hall. unfold _compute_partial_tokens.
  unfold mbind at 1, M_bind at 1, get_cache.
  rewrite split_cached_partials_eq.
  rewrite (proj2 (filter_not_nil_all _ _) Hall).
  by rewrite filter_all by (by apply Forall_forall).
Qed.


(** X11: [_compute_partial_tokens] returns one token for every word of the
    search form of the name. It sends one statement at most, for exactly
    the words that the cache does not serve; a name without such words,
    the empty name for one, costs nothing and changes nothing. *)
Theorem compute_partial_tokens_one_per_word name_ s :
  let words := Py.split (_search_normalized name_) in
  let need_lookup :=
    filter (λ w, ¬ partial_cached (partials (_cache s)) w = true) words in
  ∃ tokens s',
    _compute_partial_tokens name_ s = (Ok tokens, s')
    ∧ length tokens = length words
    ∧ statements s'
      = statements s ++ match need_lookup with
                        | [] => []
                        | _ => [GetorcreatePartialWord need_lookup]
                        end
    ∧ (need_lookup = [] →
       s' = s ∧ tokens = (λ w, default 0 (partials (_cache s) !! w)) <$> words).
Proof.
  intros words need_lookup. unfold _compute_partial_tokens. fold words.
  unfold mbind at 1, M_bind at 1, get_cache.
  rewrite split_cached_partials_eq.
  pose proof (length_filter_split
                (λ w, partial_cached (partials (_cache s)) w = true) words) as Hlen.
  subst need_lookup.
  destruct (filter (λ w, ¬ partial_cached (partials (_cache s)) w = true) words)
    as [|p need] eqn:Hneed.
  - eexists _, s. split; [done|]. rewrite length_fmap. simpl in Hlen.
    split; [lia|]. split; [by rewrite app_nil_r|]. intros _. split; [done|].
    f_equal. apply filter_all, Forall_forall.
    by apply (filter_not_nil_all (λ w, partial_cached (partials (_cache s)) w = true)).
  - unfold mbind, M_bind, execute.
    edestruct (for_each_lookup_partial (p :: need)) as (tokens' & s' & -> & Hl & Hst & _).
    exists tokens', s'. split; [done|]. rewrite Hl, length_fmap.
    split; [lia|]. split; [by rewrite Hst|done].
Qed.

(** X12: when the database never hands out the id 0, a second call for the
    same name is served by the cache: nothing is sent, nothing changes. *)
Theorem compute_partial_tokens_twice name_ s :
  (∀ db w, (getorcreate_partial_word db w).2 ≠ 0) →
  ∃ tokens s1,
    _compute_partial_tokens name_ s = (Ok tokens, s1)
    ∧ _compute_partial_tokens name_ s1
      = (Ok ((λ w, default 0 (partials (_cache s1) !! w))
               <$> Py.split (_search_normalized name_)), s1).
Proof.
  intros Hnz. set (words := Py.split (_search_normalized name_)).
  assert (∃ tokens s1,
            _compute_partial_tokens name_ s = (Ok tokens, s1)
            ∧ ∀ w, w ∈ words → partial_cached (partials (_cache s1)) w = true)
    as (tokens & s1 & Hrun & Hall).
  { unfold _compute_partial_tokens. fold words.
    unfold mbind at 1, M_bind at 1, get_cache.
    rewrite split_cached_partials_eq.
    destruct (filter (λ w, ¬ partial_cached (partials (_cache s)) w = true) words)
      as [|p need] eqn:Hneed.
    - eexists _, s. split; [done|].
      by apply (filter_not_nil_all (λ w, partial_cached (partials (_cache s)) w = true)).
    - unfold mbind, M_bind, execute.
      edestruct (for_each_lookup_partial (p :: need)) as (tokens' & s' & -> & _ & _ & Hc).
      exists tokens', s'. split; [done|]. intros w Hw. apply (Hc Hnz). simpl.
      destruct (partial_cached (partials (_cache s)) w) eqn:E; [by left|].
      right. rewrite <- Hneed. apply list_elem_of_filter. split; [congruence|done]. }
  exists tokens, s1. split; [done|]. by apply compute_partial_tokens_cached.
Qed.

(** ** House number tokens *)

Lemma split_cached_hnrs_eq (housenumbers_ : gmap string Z) terms :
  split_cached_hnrs housenumbers_ terms
  = ((λ t, default 0 (housenumbers_ !! t))
       <$> filter (λ t, is_Some (housenumbers_ !! t)) terms,
     filter (λ t, ¬ is_Some (housenumbers_ !! t)) terms).
Proof.
  unfold split_cached_hnrs.
  enough (∀ tokens0 askdb0,
            foldl (λ '(tokens, askdb) term,
                     match housenumbers_ !! term with
                     | None => (tokens, askdb ++ [term])
                     | Some token => (tokens ++ [token], askdb)
                     end) (tokens0, askdb0) terms
            = (tokens0 ++ ((λ t, default 0 (housenumbers_ !! t))
                             <$> filter (λ t, is_Some (housenumbers_ !! t)) terms),
               askdb0 ++ filter (λ t, ¬ is_Some (housenumbers_ !! t)) terms))
    as H by apply (H [] []).
  induction terms as [|t terms IH]; intros tokens0 askdb0; simpl.
  { by rewrite !app_nil_r. }
  destruct (housenumbers_ !! t) as [tid|] eqn:Ht.
  - rewrite IH, filter_cons_True, (filter_cons_False (λ t, ¬ _)), fmap_cons, Ht,
      <- app_assoc by (rewrite Ht; eauto). done.
  - rewrite IH, filter_cons_False, (filter_cons_True (λ t, ¬ _)), <- app_assoc
      by (rewrite Ht; by intros [? ?]). done.
Qed.

Lemma lookup_hnr_run tokens term s :
  let r := getorcreate_hnr_id (conn s) term in
  lookup_hnr tokens term s
  = (Ok (tokens ++ [r.2]),
     {| conn := r.1;
        _cache := set_housenumbers (<[term := r.2]> (housenumbers (_cache s)))
                    (_cache s);
        statements := statements s |}).
Proof.
  unfold lookup_hnr. unfold_M. simpl. by destruct (getorcreate_hnr_id (conn s) term).
Qed.

Lemma for_each_lookup_hnr askdb : ∀ tokens s,
  ∃ tokens' s',
    for_each lookup_hnr tokens askdb s = (Ok tokens', s')
    ∧ length tokens' = (length tokens + length askdb)%nat
    ∧ statements s' = statements s
    ∧ ∀ t, is_Some (housenumbers (_cache s) !! t) ∨ t ∈ askdb →
           is_Some (housenumbers (_cache s') !! t).
Proof.
  induction askdb as [|p askdb IH]; intros tokens s.
  { exists tokens, s. split; [done|]. split; [simpl; lia|]. split; [done|].
    intros t [?|[]%elem_of_nil]. done. }
  simpl. unfold mbind, M_bind. rewrite lookup_hnr_run.
  edestruct IH as (tokens' & s' & -> & Hlen & Hst & Hc).
  exists tokens', s'. split; [done|]. split; [|split; [done|]].
  - rewrite Hlen, length_app. simpl. lia.
  - intros t Ht. apply Hc. simpl. rewrite lookup_insert_is_Some.
    destruct (decide (p = t)) as [->|Hne]; [by left; left|].
    destruct Ht as [Ht|[->|Ht]%elem_of_cons]; [by left; right|done|by right].
Qed.

Lemma get_hnr_tokens_cached terms s :
  (∀ t, t ∈ terms → is_Some (housenumbers (_cache s) !! t)) →
  get_hnr_tokens terms s
  = (Ok ((λ t, default 0 (housenumbers (_cache s) !! t)) <$> terms), s).
Proof.
  intros Hall. unfold get_hnr_tokens. unfold mbind at 1, M_bind at 1, get_cache.
  rewrite split_cached_hnrs_eq.
  rewrite (proj2 (filter_not_nil_all _ _) Hall).
  by rewrite filter_all by (by apply Forall_forall).
Qed.

(** X13: [get_hnr_tokens] returns one token for every term and has every
    term in the cache afterwards; the same terms asked again are answered
    from the cache, term by term, and nothing is sent. *)
Theorem get_hnr_tokens_twice terms s :
  ∃ tokens s1,
    get_hnr_tokens terms s = (Ok tokens, s1)
    ∧ length tokens = length terms
    ∧ (∀ t, t ∈ terms → is_Some (housenumbers (_cache s1) !! t))
    ∧ get_hnr_tokens terms s1
      = (Ok ((λ t, default 0 (housenumbers (_cache s1) !! t)) <$> terms), s1).
Proof.
  assert (∃ tokens s1,
            get_hnr_tokens terms s = (Ok tokens, s1)
            ∧ length tokens = length terms
            ∧ ∀ t, t ∈ terms → is_Some (housenumbers (_cache s1) !! t))
    as (tokens & s1 & Hrun & Hlen & Hall).
  { unfold get_hnr_tokens. unfold mbind at 1, M_bind at 1, get_cache.
    rewrite split_cached_hnrs_eq.
    pose proof (length_filter_split
                  (λ t, is_Some (housenumbers (_cache s) !! t)) terms) as Hlen.
    destruct (filter (λ t, ¬ is_Some (housenumbers (_cache s) !! t)) terms)
      as [|p askdb] eqn:Hask.
    - eexists _, s. split; [done|]. rewrite length_fmap.
      cbv beta in Hlen. rewrite Hask in Hlen. simpl in Hlen. split; [lia|].
      by apply (filter_not_nil_all (λ t, is_Some (housenumbers (_cache s) !! t))).
    - unfold mbind, M_bind, execute.
      edestruct (for_each_lookup_hnr (p :: askdb)) as (tokens' & s' & -> & Hl & _ & Hc).
      exists tokens', s'. split; [done|]. rewrite Hl, length_fmap.
      cbv beta in Hlen. rewrite Hask in Hlen. simpl in Hlen |- *.
      split; [lia|]. intros t Ht. apply Hc. simpl.
      destruct (decide (is_Some (housenumbers (_cache s) !! t))); [by left|].
      right. rewrite <- Hask. by apply list_elem_of_filter. }
  exists tokens, s1. repeat split; try done. by apply get_hnr_tokens_cached.
Qed.

(** ** Postcodes from the postcode table *)

Lemma postcode_differences_loop_eq rows :
  postcode_differences_loop rows
  = (snd <$> filter (λ p, p.1 = None) rows,
     omap (λ p, postcode_row <$> p.1) rows).
Proof.
  forget_db.
  unfold postcode_differences_loop.
  enough (∀ td cs,
            foldl (λ '(to_delete, copystr) '(postcode, word_),
                     match postcode with
                     | None => (to_delete ++ [word_], copystr)
                     | Some pc => (to_delete, copystr ++ [postcode_row pc])
                     end) (td, cs) rows
            = (td ++ (snd <$> filter (λ p, p.1 = None) rows),
               cs ++ omap (λ p, postcode_row <$> p.1) rows)) as H by apply (H [] []).
  induction rows as [|[[pc|] w] rows IH]; intros td cs; cbn [foldl].
  - simpl. by rewrite !app_nil_r.
  - rewrite IH, filter_cons_False by done. cbn [omap list_omap fmap option_fmap option_map fst].
    by rewrite <- app_assoc.
  - rewrite IH, filter_cons_True by done. rewrite fmap_cons.
    cbn [omap list_omap fmap option_fmap option_map fst snd].
    by rewrite <- app_assoc.
Qed.

(** What is deleted and what is copied, in terms of the two tables. *)
Lemma update_postcodes_parts location_postcode db :
  let words := word <$> filter (λ r, type r = "P") db in
  ∃ to_delete copystr,
    postcode_differences_loop (select_postcode_differences location_postcode db)
    = (to_delete, copystr)
    ∧ (∀ w : string, Some w ∈ to_delete ↔
                     Some w ∈ words ∧ Some w ∉ location_postcode)
    ∧ (∀ r, r ∈ copystr ↔
            ∃ pc : string, r = postcode_row pc ∧ Some pc ∈ location_postcode
                           ∧ Some pc ∉ words)
    ∧ NoDup (word <$> copystr).
Proof.
  forget_db.
  intros words. rewrite postcode_differences_loop_eq. eexists _, _.
  split; [done|]. unfold select_postcode_differences. fold words.
  split; [|split].
  - intros w. rewrite list_elem_of_fmap. setoid_rewrite list_elem_of_filter.
    setoid_rewrite elem_of_app. setoid_rewrite list_elem_of_fmap.
    setoid_rewrite list_elem_of_filter. setoid_rewrite elem_of_remove_dups.
    split.
    + intros ([pc w'] & Hw & Hpc & [(x & [= -> ->] & _)|(x & [= _ ->] & Hn & Hx)]);
        simpl in *; [done|]. subst x.
      split; [done|]. intros Hin. apply Hn. split; [by eexists|done].
    + intros [Hin Hn]. exists (None, Some w). split; [done|]. split; [done|].
      right. exists (Some w). split; [done|]. split; [|done].
      intros [_ ?]. done.
  - intros r. rewrite list_elem_of_omap.
    setoid_rewrite elem_of_app. setoid_rewrite list_elem_of_fmap.
    setoid_rewrite list_elem_of_filter. setoid_rewrite elem_of_remove_dups.
    split.
    + intros ([pc w] & [(x & [= -> ->] & Hn & Hx)|(x & [= -> ->] & _)] & Hr);
        simpl in Hr; [|done].
      destruct x as [pc|]; [|done]. injection Hr as <-.
      exists pc. split; [done|]. split; [done|]. intros Hin. apply Hn.
      split; [by eexists|done].
    + intros (pc & -> & Hin & Hn). exists (Some pc, None).
      split; [|done]. left. exists (Some pc). split; [done|]. split; [|done].
      intros [_ ?]. done.
  - rewrite omap_app.
    assert (omap (λ p : option string * option string, postcode_row <$> p.1)
              ((λ w, (None, w)) <$> filter (λ w, ¬ (is_Some w ∧ w ∈ remove_dups location_postcode)) words)
            = []) as ->.
    { induction (filter _ words) as [|x l IH]; [done|]. done. }
    rewrite app_nil_r.
    assert (NoDup (filter (λ pc, ¬ (is_Some pc ∧ pc ∈ words))
                          (remove_dups location_postcode))) as Hnd
      by apply NoDup_filter, NoDup_remove_dups.
    induction Hnd as [|pc l Hpc Hl IH]; [constructor|].
    destruct pc as [pc|]; simpl; [|done].
    constructor; [|done].
    intros (r & Hw & (p & Hp & Hr)%list_elem_of_omap)%list_elem_of_fmap.
    apply list_elem_of_fmap in Hp as (x & -> & Hx). simpl in Hr.
    destruct x as [x|]; [|done]. injection Hr as <-. simpl in Hw.
    injection Hw as ->. done.
Qed.

Lemma elem_of_update_postcodes_from_db location_postcode db r :
  r ∈ update_postcodes_from_db location_postcode db ↔
  (r ∈ db ∧ ¬ (type r = "P" ∧ ∃ w, word r = Some w ∧ Some w ∉ location_postcode))
  ∨ ∃ pc : string, r = postcode_row pc ∧ Some pc ∈ location_postcode
                   ∧ Some pc ∉ word <$> filter (λ r, type r = "P") db.
Proof.
  forget_db.
  unfold update_postcodes_from_db.
  destruct (update_postcodes_parts location_postcode db)
    as (to_delete & copystr & -> & Hdel & Hcopy & _).
  rewrite elem_of_app, Hcopy.
  assert (r ∈ match to_delete with
              | [] => db
              | _ => filter (λ r, ¬ (type r = "P" ∧ is_Some (word r)
                                     ∧ word r ∈ to_delete)) db
              end
          ↔ r ∈ db ∧ ¬ (type r = "P" ∧ is_Some (word r) ∧ word r ∈ to_delete)) as ->.
  { destruct to_delete as [|x l]; [|rewrite list_elem_of_filter; tauto].
    split; [|tauto]. intros Hr. split; [done|]. intros (_ & _ & []%elem_of_nil). }
  assert (r ∈ db →
          (type r = "P" ∧ is_Some (word r) ∧ word r ∈ to_delete)
          ↔ (type r = "P" ∧ ∃ w, word r = Some w ∧ Some w ∉ location_postcode)) as Hiff.
  { intros Hr. split.
    - intros (Ht & [w Hw] & Hin). split; [done|]. exists w. split; [done|].
      rewrite Hw in Hin. by apply Hdel in Hin as [_ ?].
    - intros (Ht & w & Hw & Hn). split; [done|]. split; [by eexists|].
      rewrite Hw. apply Hdel. split; [|done].
      apply list_elem_of_fmap. exists r. split; [done|].
      by apply list_elem_of_filter. }
  split.
  - intros [[Hr Hn]|?]; [left|by right]. split; [done|]. by rewrite <- Hiff.
  - intros [[Hr Hn]|?]; [left|by right]. split; [done|]. by rewrite Hiff.
Qed.

Lemma postcode_row_is_listed location_postcode db r (pc : string) :
  r ∈ update_postcodes_from_db location_postcode db →
  type r = "P" → word r = Some pc → Some pc ∈ location_postcode.
Proof.
  forget_db.
  intros [[Hr Hn]|(pc' & -> & Hin & _)]%elem_of_update_postcodes_from_db Ht Hw.
  - destruct (decide (Some pc ∈ location_postcode)); [done|].
    exfalso. apply Hn. eauto.
  - simpl in Hw. by injection Hw as <-.
Qed.

Lemma listed_postcode_has_row location_postcode db (pc : string) :
  Some pc ∈ location_postcode →
  ∃ r, r ∈ update_postcodes_from_db location_postcode db
       ∧ type r = "P" ∧ word r = Some pc.
Proof.
  forget_db.
  intros Hin. setoid_rewrite elem_of_update_postcodes_from_db.
  destruct (decide (Some pc ∈ word <$> filter (λ r, type r = "P") db)) as [Hw|Hw].
  - apply list_elem_of_fmap in Hw as (r & Hw & [Ht Hr]%list_elem_of_filter).
    exists r. split; [|done]. left. split; [done|].
    intros (_ & w & Hw' & Hn). congruence.
  - exists (postcode_row pc). split; [|done]. right. by exists pc.
Qed.

(** X14: after [update_postcodes_from_db] the postcode rows and the
    postcode table agree: a postcode has a row exactly when it is in the
    table [location_postcode]. *)
Theorem update_postcodes_from_db_round_trip location_postcode db (pc : string) :
  (∃ r, r ∈ update_postcodes_from_db location_postcode db
        ∧ type r = "P" ∧ word r = Some pc)
  ↔ Some pc ∈ location_postcode.
Proof.
  split.
  - intros (r & Hr & Ht & Hw). by eapply postcode_row_is_listed.
  - apply listed_postcode_has_row.
Qed.

(** X15: [update_postcodes_from_db] touches postcode rows only, keeps the
    rows of the postcodes that are still listed, and has nothing left to do
    when it is run again. *)
Theorem update_postcodes_from_db_stable location_postcode db :
  let db' := update_postcodes_from_db location_postcode db in
  filter (λ r, type r ≠ "P") db' = filter (λ r, type r ≠ "P") db
  ∧ (∀ r w, r ∈ db → type r = "P" → word r = Some w →
            Some w ∈ location_postcode → r ∈ db')
  ∧ update_postcodes_from_db location_postcode db' = db'.
Proof.
  forget_db.
  intros db'. split; [|split].
  - subst db'. unfold update_postcodes_from_db.
    destruct (update_postcodes_parts location_postcode db)
      as (to_delete & copystr & -> & _ & Hcopy & _).
    rewrite filter_app, (filter_none _ copystr), app_nil_r.
    + destruct to_delete; [done|]. apply filter_filter_weaker. tauto.
    + apply Forall_forall. intros r (pc & -> & _)%Hcopy Hn. by apply Hn.
  - intros r w Hr Ht Hw Hin. apply elem_of_update_postcodes_from_db. left.
    split; [done|]. intros (_ & w' & Hw' & Hn). congruence.
  - unfold update_postcodes_from_db at 1.
    destruct (update_postcodes_parts location_postcode db')
      as (to_delete & copystr & -> & Hdel & Hcopy & _).
    assert (∀ w : string, Some w ∈ word <$> filter (λ r, type r = "P") db' →
                          Some w ∈ location_postcode) as Hlisted.
    { intros w (r & Hw & [Ht Hr]%list_elem_of_filter)%list_elem_of_fmap.
      by eapply postcode_row_is_listed. }
    assert (copystr = []) as ->.
    { destruct copystr as [|r l]; [done|]. exfalso.
      destruct (proj1 (Hcopy r)) as (pc & _ & Hin & Hn); [by left|].
      apply Hn. apply (listed_postcode_has_row location_postcode db pc) in Hin
        as (r' & Hr' & Ht & Hw).
      apply list_elem_of_fmap. exists r'. split; [done|].
      by apply list_elem_of_filter. }
    rewrite app_nil_r. destruct to_delete as [|x l] eqn:Htd; [done|].
    apply filter_all, Forall_forall. intros r Hr (Ht & [w Hw] & Hin).
    rewrite Hw in Hin. apply Hdel in Hin as [Hin Hn]. by apply Hn, Hlisted.
Qed.

(** ** Token information for words *)

Lemma dict_set_subset {V} (d : list (string * V)) k v p :
  p ∈ dict_set d k v → p = (k, v) ∨ p ∈ d.
Proof.
  induction d as [|[k0 v0] d IH]; simpl.
  - intros ->%list_elem_of_singleton. by left.
  - case_decide.
    + intros [->|?]%elem_of_cons; [by left|]. right. by right.
    + intros [->|[->|?]%IH]%elem_of_cons; [right; by left|by left|right; by right].
Qed.

Lemma dict_set_keys {V} (d : list (string * V)) k v :
  fst <$> dict_set d k v
  = if decide (k ∈ fst <$> d) then fst <$> d else (fst <$> d) ++ [k].
Proof.
  induction d as [|[k0 v0] d IH]; [done|].
  cbn [dict_set]. rewrite (fmap_cons fst (k0, v0) d). cbn [fst].
  destruct (decide (k0 = k)) as [->|Hk].
  - rewrite decide_True; [done|]. by left.
  - rewrite fmap_cons, IH. cbn [fst].
    destruct (decide (k ∈ fst <$> d)) as [Hin|Hin].
    + rewrite decide_True; [done|]. by right.
    + rewrite decide_False; [done|]. by intros [->|?]%elem_of_cons.
Qed.

Lemma dict_set_NoDup {V} (d : list (string * V)) k v :
  NoDup (fst <$> d) → NoDup (fst <$> dict_set d k v).
Proof.
  intros Hnd. rewrite dict_set_keys. case_decide; [done|].
  apply NoDup_app. split; [done|]. split; [|apply NoDup_singleton].
  by intros x Hx ->%list_elem_of_singleton.
Qed.

Lemma elem_of_dict_set_keys {V} (d : list (string * V)) k v x :
  x ∈ fst <$> dict_set d k v ↔ x = k ∨ x ∈ fst <$> d.
Proof.
  rewrite dict_set_keys. case_decide.
  - naive_solver.
  - rewrite elem_of_app, list_elem_of_singleton. tauto.
Qed.

Lemma startswith_hash w :
  (∃ rest, w = String "#" rest ∧ Py.startswith w "#" = true
           ∧ word_token_of w = _search_normalized rest)
  ∨ (Py.startswith w "#" = false ∧ word_token_of w = _search_normalized w
     ∧ ∀ rest, w ≠ String "#" rest).
Proof.
  destruct w as [|c w]; [by right|].
  destruct (decide (c = "#"%char)) as [->|Hc].
  - left. exists w. repeat split; try done.
    unfold Py.startswith. simpl. by destruct w.
  - right. destruct c as [[] [] [] [] [] [] [] []]; done.
Qed.

Lemma word_tokens_loop_step (F P : list (string * string)) w :
  match w with
  | String "#" rest => (dict_set F w (_search_normalized rest), P)
  | _ => (F, dict_set P w (_search_normalized w))
  end
  = if Py.startswith w "#"
    then (dict_set F w (word_token_of w), P)
    else (F, dict_set P w (word_token_of w)).
Proof.
  destruct w as [|c w]; [done|].
  destruct (decide (c = "#"%char)) as [->|Hc]; [by destruct w|].
  destruct c as [[] [] [] [] [] [] [] []]; done.
Qed.

(** The two dicts of the first loop. *)
Lemma word_tokens_loop_spec words :
  let fp := word_tokens_loop words in
  NoDup (fst <$> fp.1) ∧ NoDup (fst <$> fp.2)
  ∧ (∀ k v, (k, v) ∈ fp.1 →
       k ∈ words ∧ Py.startswith k "#" = true ∧ v = word_token_of k)
  ∧ (∀ k v, (k, v) ∈ fp.2 →
       k ∈ words ∧ Py.startswith k "#" = false ∧ v = word_token_of k)
  ∧ (∀ w, w ∈ words → w ∈ fst <$> fp.1 ∨ w ∈ fst <$> fp.2).
Proof.
  unfold word_tokens_loop.
  enough (∀ fp0 : list (string * string) * list (string * string),
            let fp := foldl (λ '(full_tokens, partial_tokens) word_,
                               match word_ with
                               | String "#" rest =>
                                   (dict_set full_tokens word_ (_search_normalized rest),
                                    partial_tokens)
                               | _ =>
                                   (full_tokens,
                                    dict_set partial_tokens word_
                                      (_search_normalized word_))
                               end) fp0 words in
            (NoDup (fst <$> fp0.1) → NoDup (fst <$> fp.1))
            ∧ (NoDup (fst <$> fp0.2) → NoDup (fst <$> fp.2))
            ∧ (∀ k v, (k, v) ∈ fp.1 →
                 (k, v) ∈ fp0.1
                 ∨ (k ∈ words ∧ Py.startswith k "#" = true ∧ v = word_token_of k))
            ∧ (∀ k v, (k, v) ∈ fp.2 →
                 (k, v) ∈ fp0.2
                 ∨ (k ∈ words ∧ Py.startswith k "#" = false ∧ v = word_token_of k))
            ∧ (∀ w, w ∈ fst <$> fp0.1 → w ∈ fst <$> fp.1)
            ∧ (∀ w, w ∈ fst <$> fp0.2 → w ∈ fst <$> fp.2)
            ∧ (∀ w, w ∈ words → w ∈ fst <$> fp.1 ∨ w ∈ fst <$> fp.2)) as H.
  { destruct (H ([], [])) as (H1 & H2 & H3 & H4 & _ & _ & H5).
    split; [apply H1; constructor|]. split; [apply H2; constructor|].
    split; [intros k v [[]%elem_of_nil|?]%H3; done|].
    split; [intros k v [[]%elem_of_nil|?]%H4; done|done]. }
  induction words as [|w words IH]; intros [F0 P0]; cbn [foldl].
  { repeat split; try done; auto. intros w []%elem_of_nil. }
  cbv beta iota. rewrite word_tokens_loop_step.
  destruct (Py.startswith w "#") eqn:Hs.
  - destruct (IH (dict_set F0 w (word_token_of w), P0))
      as (H1 & H2 & H3 & H4 & H5 & H6 & H7). simpl in *.
    split; [intros; by apply H1, dict_set_NoDup|]. split; [done|].
    split; [|split; [|split; [|split]]].
    + intros k v [[[= -> ->]|?]%dict_set_subset|(? & ? & ?)]%H3; auto.
      * right. split; [by left|done].
      * right. split; [by right|done].
    + intros k v [?|(? & ? & ?)]%H4; auto. right. split; [by right|done].
    + intros x Hx. apply H5, elem_of_dict_set_keys. by right.
    + done.
    + intros x [->|Hx]%elem_of_cons; [|by apply H7].
      left. apply H5, elem_of_dict_set_keys. by left.
  - destruct (IH (F0, dict_set P0 w (word_token_of w)))
      as (H1 & H2 & H3 & H4 & H5 & H6 & H7). simpl in *.
    split; [done|]. split; [intros; by apply H2, dict_set_NoDup|].
    split; [|split; [|split; [|split]]].
    + intros k v [?|(? & ? & ?)]%H3; auto. right. split; [by right|done].
    + intros k v [[[= -> ->]|?]%dict_set_subset|(? & ? & ?)]%H4; auto.
      * right. split; [by left|done].
      * right. split; [by right|done].
    + done.
    + intros x Hx. apply H6, elem_of_dict_set_keys. by right.
    + intros x [->|Hx]%elem_of_cons; [|by apply H7].
      right. apply H6, elem_of_dict_set_keys. by left.
Qed.

Lemma select_token_ids_lookup db typ tokens tok :
  match select_token_ids db typ tokens !! tok with
  | Some oid =>
      ∃ r, r ∈ db ∧ word_token r = tok ∧ type r = typ ∧ word_id r = oid
  | None => tok ∈ tokens → ∀ r, r ∈ db → type r = typ → word_token r ≠ tok
  end.
Proof.
  unfold select_token_ids.
  enough (∀ (l : list word_row) (m : gmap string (option Z)),
            match foldl (λ ids r, <[word_token r := word_id r]> ids) m l !! tok with
            | Some oid =>
                m !! tok = Some oid
                ∨ ∃ r, r ∈ l ∧ word_token r = tok ∧ word_id r = oid
            | None => m !! tok = None ∧ ∀ r, r ∈ l → word_token r ≠ tok
            end) as H.
  { specialize (H (filter (λ r, word_token r ∈ tokens ∧ type r = typ) db) ∅).
    destruct (foldl _ _ _ !! tok) as [oid|].
    - destruct H as [H|(r & [[_ Ht] Hr]%list_elem_of_filter & ? & ?)]; [done|].
      by exists r.
    - destruct H as [_ H]. intros Htok r Hr Ht Hw. apply (H r); [|done].
      apply list_elem_of_filter. by rewrite Hw. }
  induction l as [|r l IH]; intros m; simpl.
  { destruct (m !! tok); [by left|]. split; [done|]. by intros r []%elem_of_nil. }
  specialize (IH (<[word_token r := word_id r]> m)).
  destruct (foldl _ _ l !! tok) as [oid|].
  - destruct IH as [Hm|(r' & ? & ? & ?)].
    + apply lookup_insert_Some in Hm as [[? <-]|[? ?]]; [|by left].
      right. exists r. split; [by left|done].
    + right. exists r'. split; [by right|done].
  - destruct IH as [Hm Hl]. apply lookup_insert_None in Hm as [? ?].
    split; [done|]. intros r' [->|?]%elem_of_cons; [done|by apply Hl].
Qed.

(** X16: [get_word_token_info] answers once for every distinct word; a
    word with a leading [#] is looked up without it among the full words
    (type [W]), any other among the partial words (type [w]). An id in the
    answer is the id of a row with that token and type; when there is no
    such row the id is [None]. *)
Theorem get_word_token_info_spec db words :
  let result := get_word_token_info db words in
  NoDup ((λ e, e.1.1) <$> result)
  ∧ (∀ w, w ∈ words ↔ w ∈ (λ e, e.1.1) <$> result)
  ∧ ∀ w tok id, (w, tok, id) ∈ result →
      ∃ name_ typ,
        ((w = String "#" name_ ∧ typ = "W")
         ∨ (Py.startswith w "#" = false ∧ name_ = w ∧ typ = "w"))
        ∧ tok = _search_normalized name_
        ∧ (∀ i, id = Some i →
             ∃ r, r ∈ db ∧ word_token r = tok ∧ type r = typ ∧ word_id r = Some i)
        ∧ ((∀ r, r ∈ db → type r = typ → word_token r ≠ tok) → id = None).
Proof.
  forget_db.
  intros result. subst result. unfold get_word_token_info.
  destruct (word_tokens_loop_spec words) as (HndF & HndP & HF & HP & Hcov).
  destruct (word_tokens_loop words) as [F P]. simpl in *.
  assert (∀ (ids : gmap string (option Z)) (d : list (string * string)),
            (λ e : string * string * option Z, e.1.1)
              <$> ((λ '(k, v), (k, v, default None (ids !! v))) <$> d)
            = fst <$> d) as Hkeys.
  { intros ids d. rewrite <- list_fmap_compose. apply list_fmap_ext.
    by intros _ [k v] _. }
  split; [|split].
  - rewrite fmap_app, !Hkeys. apply NoDup_app. split; [done|]. split; [|done].
    intros k (p1 & -> & Hp1)%list_elem_of_fmap (p2 & Hk & Hp2)%list_elem_of_fmap.
    destruct p1 as [k1 v1], p2 as [k2 v2]. simpl in Hk. subst k2.
    apply HF in Hp1 as (_ & Hs1 & _). apply HP in Hp2 as (_ & Hs2 & _).
    simpl in *. congruence.
  - intros w. rewrite fmap_app, !Hkeys, elem_of_app. split; [apply Hcov|].
    intros [(p & -> & Hp)%list_elem_of_fmap|(p & -> & Hp)%list_elem_of_fmap];
      destruct p as [k v]; [by apply HF in Hp as (? & _)|by apply HP in Hp as (? & _)].
  - intros w tok id [Hin|Hin]%elem_of_app;
      apply list_elem_of_fmap in Hin as ([k v] & [= -> -> ->] & Hp).
    + apply HF in Hp as (_ & Hs & ->).
      destruct (startswith_hash k) as [(rest & -> & _ & Htok)|(Hn & _)];
        [|congruence].
      exists rest, "W". split; [by left|]. split; [done|].
      pose proof (select_token_ids_lookup db "W" (snd <$> F)
                    (word_token_of (String "#" rest))) as Hl.
      destruct (select_token_ids db "W" (snd <$> F) !! _) as [oid|]; simpl.
      * destruct Hl as (r & ? & ? & ? & <-). split.
        -- intros i Hi. exists r. by rewrite <- Hi, <- Htok.
        -- intros Hnone. exfalso. apply (Hnone r); [done..|]. by rewrite <- Htok.
      * split; [by intros i [=]|done].
    + apply HP in Hp as (_ & Hs & ->).
      destruct (startswith_hash k) as [(rest & -> & Hy & _)|(_ & Htok & _)];
        [congruence|].
      exists k, "w". split; [by right|]. split; [done|].
      pose proof (select_token_ids_lookup db "w" (snd <$> P) (word_token_of k)) as Hl.
      destruct (select_token_ids db "w" (snd <$> P) !! _) as [oid|]; simpl.
      * destruct Hl as (r & ? & ? & ? & <-). split.
        -- intros i Hi. exists r. by rewrite <- Hi.
        -- intros Hnone. exfalso. by apply (Hnone r).
      * split; [by intros i [=]|done].
Qed.

(** ** Name tokens once more *)

(** X17: a name without analysis module stops the loop where it stands.
    The names before it have been handled, with their rows created and
    their entries cached, and these effects stay; the names after it are
    not looked at. *)
Theorem compute_name_tokens_raises_at_first_unmapped before bad after s acc s1 :
  _compute_name_tokens before s = (Ok acc, s1) →
  names (_cache s1) !! dispatch_key bad = None →
  analysis token_analysis !! get_attr bad "analyzer" = None →
  _compute_name_tokens (before ++ bad :: after) s = (Raise KeyError, s1).
Proof.
  unfold _compute_name_tokens. intros Hrun Hc Ha.
  rewrite for_each_app, Hrun. simpl. unfold mbind, M_bind.
  by rewrite compute_name_step_unmapped.
Qed.

(** ** Address fields *)

Lemma returns_for_each_in {A B} (f : B → A → M B) (I : B → Prop) (l : list A) :
  (∀ acc x, x ∈ l → I acc → returns_with (f acc x) I) →
  ∀ acc, I acc → returns_with (for_each f acc l) I.
Proof.
  induction l as [|x l IH]; intros Hf acc HI; simpl.
  - by apply returns_ret.
  - eapply returns_bind; [apply Hf; [by left|done]|].
    intros acc' HI'. apply IH; [|done]. intros acc2 y Hy. apply Hf. by right.
Qed.

Lemma returns_add_housenumbers_keys data hnrs :
  returns_with (add_housenumbers data hnrs)
    (λ data', ∀ key, is_Some (data' !! key) →
                     key = "hnr" ∨ key = "hnr_tokens" ∨ is_Some (data !! key)).
Proof.
  unfold add_housenumbers.
  eapply returns_bind; [apply returns_get_hnr_tokens|]. intros tokens _.
  apply returns_ret. intros key.
  rewrite !lookup_insert_is_Some. naive_solver.
Qed.

(** X18: where the fields of the address come from. [hnr] and [hnr_tokens]
    need a house number item, [street] a street item, [place] a place item
    without suffix; and a kind is a key of [addr] only if it is the kind of
    an item that is neither of these nor a postcode, [country] or [full],
    has no suffix and does not start with [_]. Address processing always
    returns. *)
Theorem process_place_address_fields token_info address :
  returns_with (_process_place_address token_info address)
    (λ data,
       (∀ key, is_Some (data !! key) →
          is_Some (token_info !! key)
          ∨ ((key = "hnr" ∨ key = "hnr_tokens")
             ∧ ∃ item, item ∈ address
                 ∧ kind item ∈ ["housenumber"; "streetnumber"; "conscriptionnumber"])
          ∨ (key = "street" ∧ ∃ item, item ∈ address ∧ kind item = "street")
          ∨ (key = "place"
             ∧ ∃ item, item ∈ address ∧ kind item = "place" ∧ no_suffix item = true)
          ∨ (key = "addr"
             ∧ ∃ item, item ∈ address ∧ generic_address_item item))
       ∧ ∀ d, data !! "addr" = Some (VDict d) →
           token_info !! "addr" = Some (VDict d)
           ∨ ∀ k, is_Some (d !! k) →
               ∃ item, item ∈ address ∧ kind item = k ∧ generic_address_item item).
Proof.
  set (hnr_item := ∃ item, item ∈ address
         ∧ kind item ∈ ["housenumber"; "streetnumber"; "conscriptionnumber"]).
  set (street_item := ∃ item, item ∈ address ∧ kind item = "street").
  set (place_item := ∃ item, item ∈ address ∧ kind item = "place"
                             ∧ no_suffix item = true).
  set (I := λ acc : address_acc,
         (acc_hnrs acc ≠ [] → hnr_item)
         ∧ (acc_streets acc ≠ [] → street_item)
         ∧ (∀ k tokens, (k, tokens) ∈ acc_addr_terms acc →
              ∃ item, item ∈ address ∧ kind item = k ∧ generic_address_item item)
         ∧ (∀ key, is_Some (acc_data acc !! key) →
              is_Some (token_info !! key) ∨ (key = "place" ∧ place_item))
         ∧ (acc_data acc !! "addr" = token_info !! "addr")).
  unfold _process_place_address.
  eapply (returns_bind _ _ I).
  { apply returns_for_each_in.
    - intros acc item Hitem (Hh & Hs & Ht & Hd & Ha). unfold process_address_item.
      case_bool_decide as Hk1.
      { eapply returns_bind; [apply returns_add_postcode|]. intros _ _.
        by apply returns_ret. }
      case_bool_decide as Hk2.
      { apply returns_ret. repeat split; try done. intros _. by exists item. }
      case_bool_decide as Hk3.
      { eapply returns_bind; [apply returns_retrieve_full_tokens|]. intros full _.
        apply returns_ret. repeat split; try done. intros _. by exists item. }
      case_bool_decide as Hk4.
      { destruct (no_suffix item) eqn:Hsuf; [|by apply returns_ret].
        eapply returns_bind; [apply returns_compute_partial_tokens|]. intros tokens _.
        apply returns_ret. repeat split; try done; simpl.
        - intros key. unfold add_place. destruct tokens; [apply Hd|].
          rewrite lookup_insert_is_Some. intros [<-|[_ ?]]; [|by apply Hd].
          right. split; [done|]. by exists item.
        - unfold add_place. destruct tokens; [done|]. by rewrite lookup_insert_ne. }
      destruct (negb (Py.startswith (kind item) "_") && no_suffix item
                && negb (bool_decide (kind item ∈ ["country"; "full"]))) eqn:Hg;
        [|by apply returns_ret].
      eapply returns_bind; [apply returns_compute_partial_tokens|]. intros tokens _.
      apply returns_ret. repeat split; try done; simpl.
      intros k toks [?|[= -> ->]%list_elem_of_singleton]%elem_of_app; [eauto|].
      exists item. split; [done|]. split; [done|].
      apply andb_true_iff in Hg as [[Hu Hsuf]%andb_true_iff Hcf].
      apply negb_true_iff in Hu, Hcf. apply bool_decide_eq_false in Hcf.
      split; [|done].
      intros Hin. repeat (apply elem_of_cons in Hin as [Hin|Hin]; [subst|]).
      1: done. 1-3: by apply Hk2; rewrite Hin; repeat constructor.
      1-2: done. 1-2: by apply Hcf; rewrite Hin; repeat constructor.
      by apply elem_of_nil in Hin.
    - subst I. simpl. split; [done|]. split; [done|].
      split; [by intros k t []%elem_of_nil|]. split; [intros key ?; by left|done]. }
  intros acc (Hh & Hs & Ht & Hd & Ha).
  eapply (returns_bind _ _
            (λ data, (∀ key, is_Some (data !! key) →
                        ((key = "hnr" ∨ key = "hnr_tokens") ∧ hnr_item)
                        ∨ is_Some (acc_data acc !! key))
                     ∧ data !! "addr" = acc_data acc !! "addr")).
  { destruct (acc_hnrs acc) as [|hnr0 rest] eqn:Hhnrs.
    - apply returns_ret. split; [auto|done].
    - destruct (split_housenumbers_Ok hnr0 rest) as [l ->].
      eapply returns_bind; [by apply (returns_ret l (λ _, True))|]. intros hnrs _.
      intros s0.
      destruct (returns_add_housenumbers_keys (acc_data acc)
                  (_make_standard_hnr <$> hnrs) s0) as (d1 & s1 & Hrun & Hkeys).
      destruct (returns_add_housenumbers (acc_data acc)
                  (_make_standard_hnr <$> hnrs) s0) as (d2 & s2 & Hrun2 & _).
      exists d1, s1. split; [done|]. split.
      + intros key [?|[?|?]]%Hkeys; [left|left|right]; auto.
      + clear Hrun2. unfold add_housenumbers in Hrun. unfold mbind, M_bind in Hrun.
        destruct (get_hnr_tokens _ s0) as [[tokens|e] s']; [|done].
        injection Hrun as <- <-. by rewrite !lookup_insert_ne. }
  intros data [Hkeys Haddr]. apply returns_ret.
  destruct (add_address_terms_keys_aux data (acc_addr_terms acc)) as (d & Hd1 & Hd2).
  assert (∀ k, is_Some (d !! k) →
               ∃ item, item ∈ address ∧ kind item = k ∧ generic_address_item item)
    as Hgen.
  { intros k (tokens & Hin & _)%Hd1. eauto. }
  set (data1 := match acc_addr_terms acc with
                | [] => data
                | addr_terms => add_address_terms data addr_terms
                end).
  assert (data1 = if decide (d = ∅) then data else <["addr" := VDict d]> data)
    as Hdata1.
  { subst data1. destruct (acc_addr_terms acc) eqn:Hterms; [|done].
    rewrite decide_True; [done|]. apply map_eq. intros k. rewrite lookup_empty.
    apply eq_None_not_Some. intros (tokens & []%elem_of_nil & _)%Hd1. }
  set (data2 := match acc_streets acc with
                | [] => data1
                | streets => add_street data1 streets
                end).
  assert (∀ key, is_Some (data2 !! key) →
                 (key = "street" ∧ street_item) ∨ is_Some (data1 !! key)) as H2.
  { intros key. subst data2. destruct (acc_streets acc) eqn:Hst; [auto|].
    unfold add_street. rewrite lookup_insert_is_Some.
    intros [<-|[_ ?]]; [|auto]. left. split; [done|]. by apply Hs. }
  assert (data2 !! "addr" = data1 !! "addr") as H2a.
  { subst data2. destruct (acc_streets acc); [done|].
    unfold add_street. by rewrite lookup_insert_ne. }
  split.
  - intros key [[-> ?]|H1]%H2; [tauto|].
    rewrite Hdata1 in H1. destruct (decide (d = ∅)) as [|Hne].
    + apply Hkeys in H1 as [[? ?]|[?|[-> ?]]%Hd]; tauto.
    + apply lookup_insert_is_Some in H1 as [<-|[_ H1]].
      * do 4 right. split; [done|].
        destruct (map_choose d Hne) as (k & v & Hk).
        destruct (Hgen k) as (item & ? & _ & ?); [by eexists|]. by exists item.
      * apply Hkeys in H1 as [[? ?]|[?|[-> ?]]%Hd]; tauto.
  - intros d'. rewrite H2a, Hdata1. destruct (decide (d = ∅)).
    + rewrite Haddr, Ha. auto.
    + rewrite lookup_insert_eq. intros [= <-]. by right.
Qed.

(** ** Places once more *)

(** X19: a place whose names all have their analysis module is processed
    without an exception, whatever its address and whatever the session
    has seen before; its token info has the field [names] exactly when the
    place has names. *)
Theorem process_place_returns place s :
  (∀ n, n ∈ place_names place →
        is_Some (analysis token_analysis !! get_attr n "analyzer")) →
  ∃ data s',
    process_place place s = (Ok data, s')
    ∧ (is_Some (data !! "names") ↔ place_names place ≠ []).
Proof.
  intros Hall. unfold process_place, _compute_name_tokens.
  destruct (place_names place) as [|n rest] eqn:Hn.
  - unfold mbind, M_bind, mret at 1, M_ret at 1.
    destruct (place_address place) as [|a address].
    + eexists _, _. split; [done|]. rewrite lookup_empty. split; [by intros [? ?]|done].
    + destruct (returns_process_place_address ∅ (a :: address) s)
        as (data & s' & -> & Hdata).
      exists data, s'. split; [done|]. rewrite Hdata, lookup_empty.
      split; [by intros [? ?]|done].
  - destruct (compute_name_tokens_returns (n :: rest) (∅, ∅) s Hall)
      as ([fulls_ partials_] & s1 & Hrun).
    unfold mbind at 1 2 3, M_bind at 1 2 3. rewrite Hrun.
    assert (∃ s2, (if is_country place
                   then _add_country_full_names (country_code place) (n :: rest)
                   else mret ()) s1 = (Ok (), s2)) as [s2 ->].
    { destruct (is_country place); [|by eexists].
      destruct (returns_add_country_full_names (country_code place) (n :: rest) s1)
        as ([] & s2 & -> & _). by eexists. }
    unfold mret at 1, M_ret at 1.
    destruct (place_address place) as [|a address].
    + eexists _, _. split; [done|]. unfold add_names. rewrite lookup_insert_eq.
      split; [done|by eexists].
    + destruct (returns_process_place_address (add_names ∅ fulls_ partials_)
                  (a :: address) s2) as (data & s' & -> & Hdata).
      exists data, s'. split; [done|]. rewrite Hdata. unfold add_names.
      rewrite lookup_insert_eq. split; [done|by eexists].
Qed.

(** ** Postcode normalization once more *)

Lemma lstrip_empty_rstrip s : Py.lstrip s = "" ↔ Py.rstrip s = "".
Proof.
  induction s as [|c s IH]; simpl; [done|].
  destruct (Py.isspace c).
  - rewrite IH. by destruct (Py.rstrip s).
  - split; [done|]. by destruct (Py.rstrip s).
Qed.

Lemma strip_empty_lstrip s : Py.strip s = "" → Py.lstrip s = "".
Proof.
  unfold Py.strip. intros H. apply lstrip_empty_rstrip in H.
  by rewrite lstrip_idemp in H.
Qed.

Lemma lstrip_app_blank pre s : Py.lstrip pre = "" → Py.lstrip (pre +:+ s) = Py.lstrip s.
Proof.
  induction pre as [|c pre IH]; simpl; [done|].
  destruct (Py.isspace c); [done|done].
Qed.

Lemma rstrip_app_blank s post : Py.rstrip post = "" → Py.rstrip (s +:+ post) = Py.rstrip s.
Proof.
  intros Hp. induction s as [|c s IH]; simpl; [done|]. by rewrite IH.
Qed.

Lemma lstrip_app s post :
  Py.lstrip (s +:+ post)
  = match Py.lstrip s with
    | "" => Py.lstrip post
    | t => t +:+ post
    end.
Proof.
  induction s as [|c s IH]; [done|]. simpl. by destruct (Py.isspace c).
Qed.

Lemma strip_padded pre x post :
  Py.strip pre = "" → Py.strip post = "" →
  Py.strip (pre +:+ x +:+ post) = Py.strip x.
Proof.
  intros Hpre%strip_empty_lstrip Hpost%strip_empty_lstrip.
  unfold Py.strip. rewrite lstrip_app_blank, lstrip_app by done.
  destruct (Py.lstrip x) as [|c t] eqn:Hx.
  - by rewrite Hpost.
  - apply rstrip_app_blank. by apply lstrip_empty_rstrip.
Qed.

(** X20: the normalized postcode does not depend on the case of the letters
    or on blanks around the postcode. *)
Theorem normalize_postcode_insensitive pre x post :
  Py.strip pre = "" → Py.strip post = "" →
  normalize_postcode (pre +:+ x +:+ post) = normalize_postcode x
  ∧ normalize_postcode (Py.upper x) = normalize_postcode x.
Proof.
  intros Hpre Hpost. unfold normalize_postcode. split.
  - by rewrite strip_padded.
  - by rewrite strip_upper, upper_idemp.
Qed.

(** ** House numbers, split twice *)

Lemma hnr_pieces_fixed l :
  (∀ x, x ∈ l → Py.re_search_class hnr_separator x = false ∧ Py.strip x = x) →
  hnr_pieces l = l.
Proof.
  unfold hnr_pieces. induction l as [|x l IH]; intros Hall; [done|].
  rewrite bind_cons, IH by (intros y Hy; apply Hall; by right).
  destruct (Hall x) as [Hs Hx]; [by left|].
  by rewrite re_split_class_whole, fmap_cons, Hx.
Qed.

Lemma hnr_pieces_stripped hnrs x :
  x ∈ hnr_pieces hnrs → Py.strip x = x.
Proof.
  unfold hnr_pieces. rewrite list_elem_of_bind.
  intros (hnr & (p & -> & Hp)%list_elem_of_fmap & _). apply strip_idemp.
Qed.

(** X21: splitting what has been split gives the same house numbers again,
    up to their order. *)
Theorem split_housenumbers_idempotent hnr0 rest :
  ∃ l l2,
    _split_housenumbers (hnr0 :: rest) = Ok l
    ∧ _split_housenumbers l = Ok l2
    ∧ l2 ≡ₚ l.
Proof.
  assert (∀ l, l ≠ [] → (length l ≤ 1 ∨ NoDup l)%nat →
               (∀ x, x ∈ l → Py.re_search_class hnr_separator x = false
                             ∧ Py.strip x = x) →
               ∃ l2, _split_housenumbers l = Ok l2 ∧ l2 ≡ₚ l) as Hsecond.
  { intros [|h t] Hne Hshape Hall; [done|].
    unfold _split_housenumbers. cbv beta iota. fold (hnr_pieces (h :: t)).
    rewrite hnr_pieces_fixed by done.
    destruct (Hall h) as [Hs _]; [by left|].
    rewrite <- orb_assoc, contains_separator, Hs, orb_false_r.
    case_bool_decide as Hlen; [|by eexists].
    eexists. split; [done|]. apply elements_list_to_set.
    destruct Hshape as [?|?]; [simpl in *; lia|done]. }
  unfold _split_housenumbers at 1. cbv beta iota. fold (hnr_pieces (hnr0 :: rest)).
  case_bool_decide as Hlen; cbn [orb].
  - case_bool_decide as Hp.
    + eexists _. edestruct Hsecond as (l2 & Hl2 & Hperm); [| | |eexists; eauto].
      * intros He. apply elements_empty_inv in He.
        pose proof (hnr_pieces_nonempty hnr0 rest).
        destruct (hnr_pieces (hnr0 :: rest)); [done|set_solver].
      * right. apply NoDup_elements.
      * intros x. rewrite elem_of_elements, elem_of_list_to_set. intros Hx.
        split; [by eapply hnr_pieces_no_separator|by eapply hnr_pieces_stripped].
    + eexists _. edestruct Hsecond as (l2 & Hl2 & Hperm); [| | |eexists; eauto].
      * apply hnr_pieces_nonempty.
      * left. lia.
      * intros x Hx.
        split; [by eapply hnr_pieces_no_separator|by eapply hnr_pieces_stripped].
  - destruct rest; [|simpl in Hlen; lia].
    rewrite contains_separator.
    destruct (Py.re_search_class hnr_separator hnr0) eqn:Hs.
    + case_bool_decide as Hp.
      * eexists _. edestruct Hsecond as (l2 & Hl2 & Hperm); [| | |eexists; eauto].
        -- intros He. apply elements_empty_inv in He.
           pose proof (hnr_pieces_nonempty hnr0 []).
           destruct (hnr_pieces [hnr0]); [done|set_solver].
        -- right. apply NoDup_elements.
        -- intros x. rewrite elem_of_elements, elem_of_list_to_set. intros Hx.
           split; [by eapply hnr_pieces_no_separator|by eapply hnr_pieces_stripped].
      * eexists _. edestruct Hsecond as (l2 & Hl2 & Hperm); [| | |eexists; eauto].
        -- apply hnr_pieces_nonempty.
        -- left. lia.
        -- intros x Hx.
           split; [by eapply hnr_pieces_no_separator|by eapply hnr_pieces_stripped].
    + exists [hnr0], [hnr0]. split; [done|]. split; [|done].
      by apply split_housenumbers_single.
Qed.

End Analyzer.

(** * The analyzer at work on the sample configuration *)

(** C1 fails as stated: the postcode [12345;67890] holds a separator, and
    after the item is processed the table has no postcode row for it. *)
Lemma postcode_with_separator_not_inserted :
  let item := mk_address "postcode" "12345;67890" in
  let acc := {| acc_hnrs := []; acc_addr_terms := []; acc_streets := []; acc_data := ∅ |} in
  let s' := (process_address_item sample_analysis (sample_getorcreate "w")
               acc item (analyzer_init [])).2 in
  Py.re_search_class postcode_separator (name item) = true
  ∧ ¬ ∃ r, r ∈ conn s' ∧ type r = "P"
           ∧ word_token r = _search_normalized sample_analysis (name item).
Proof.
  split; [done|]. intros (r & Hr & _). simpl in Hr. by apply elem_of_nil in Hr.
Qed.

(** The same item with the plain postcode [12345] does get its row. *)
Example postcode_plain_inserted :
  (_add_postcode sample_analysis " ab12 " (analyzer_init [])).2 =
  {| conn := [{| word_id := None; word_token := "AB12"; type := "P";
                 word := Some "AB12"; info := None |}];
     _cache := set_postcodes {[ "AB12" ]} TokenCache_init;
     statements := [InsertPostcode "AB12" "AB12"] |}.
Proof. by vm_compute. Qed.

Lemma process_postcode_with_separator_skipped_witness :
  let item := mk_address "postcode" "12345;67890" in
  let acc := {| acc_hnrs := []; acc_addr_terms := []; acc_streets := []; acc_data := ∅ |} in
  let s := analyzer_init [] in
  kind item = "postcode"
  ∧ Py.re_search_class postcode_separator (name item) = true
  ∧ _add_postcode sample_analysis (name item) s = (Ok (), s)
  ∧ process_address_item sample_analysis (sample_getorcreate "w") acc item s = (Ok acc, s).
Proof.
  intros item acc s. split; [reflexivity|]. split; [reflexivity|].
  apply (process_postcode_with_separator_skipped sample_analysis
           (sample_getorcreate "w") acc item s); reflexivity.
Defined.

(** C2 fails on the code: the analyzer key [zz] has no module; the lookup
    method answers with the default module, the name loop raises. *)
Lemma compute_name_tokens_unmapped_analyzer :
  let n := mk_name "a" (Some "zz") in
  analysis sample_analysis !! get_attr n "analyzer" = None
  ∧ get_analyzer sample_analysis (get_attr n "analyzer") = Ok plain_analyzer
  ∧ _compute_name_tokens sample_analysis sample_getorcreate_full_word [n]
      (analyzer_init []) = (Raise KeyError, analyzer_init []).
Proof. repeat split; by vm_compute. Qed.




Lemma process_street_item_read_only_witness :
  let item := mk_address "street" "main st" in
  let acc := {| acc_hnrs := []; acc_addr_terms := []; acc_streets := []; acc_data := ∅ |} in
  let s := analyzer_init [] in
  kind item = "street"
  ∧ ∃ s', process_address_item sample_analysis (sample_getorcreate "w") acc item s
          = (Ok acc, s')
          ∧ conn s' = conn s.
Proof.
  intros item acc s. split; [reflexivity|].
  destruct (process_street_item_read_only sample_analysis sample_getorcreate_full_word
              (sample_getorcreate "w") (sample_getorcreate "H") acc item s eq_refl)
    as (full & s' & Hrun & Hdb & Hc & Hm & Hempty).
  exists s'. split; [|exact Hdb].
  apply Hempty. destruct Hm as [-> _]. reflexivity.
Defined.


(** The two synchronizations of the specification's example. *)
Example update_special_phrases_example :
  let s := analyzer_init [special_phrase_row "a" "a" "A" "B" "-"] in
  (update_special_phrases sample_analysis
     [("a", "A", "B", "-"); ("b", "C", "D", "in")] true s).1 = Ok (2, 1, 0)
  ∧ update_special_phrases sample_analysis [("b", "C", "D", "in")] true s =
      (Ok (1, 1, 1),
       {| conn := [special_phrase_row "b" "b" "C" "D" "in"];
          _cache := TokenCache_init;
          statements := [SelectSpecialPhrases;
                         CopySpecialPhrases [special_phrase_row "b" "b" "C" "D" "in"];
                         DeleteSpecialPhrases [(Some "a", "A", "B", "-")]] |}).
Proof. split; by vm_compute. Qed.

(** A place with two house numbers, a street nobody indexed and a name. *)
Example process_place_example :
  (process_place sample_analysis sample_getorcreate_full_word
     (sample_getorcreate "w") (sample_getorcreate "H")
     {| place_names := [mk_name "a" None];
        place_address := [mk_address "housenumber" "4;4"; mk_address "street" "x";
                          mk_address "postcode" "12345"];
        is_country := false; country_code := "de" |}
     (analyzer_init [])).1
  = Ok (<["hnr" := VStr "4"]> (<["hnr_tokens" := VStr "{4}"]> {[ "names" := VStr "{1,2}" ]})).
Proof. by vm_compute. Qed.

(** * Further examples on the sample configuration *)

Lemma add_postcode_same_normal_form_witness :
  let s := analyzer_init [] in
  Py.re_search_class postcode_separator " ab12 " = false
  ∧ normalize_postcode " ab12 " = normalize_postcode "Ab12"
  ∧ ∃ s1, _add_postcode sample_analysis " ab12 " s = (Ok (), s1)
          ∧ _add_postcode sample_analysis "Ab12" s1 = (Ok (), s1).
Proof.
  intros s. split; [reflexivity|]. split; [reflexivity|].
  apply (add_postcode_same_normal_form sample_analysis " ab12 " "Ab12" s);
    reflexivity.
Defined.

Lemma update_special_phrases_replace_round_trip_witness :
  let s := analyzer_init [special_phrase_row "a" "a" "A" "B" "-"] in
  let phrases := [("b", "C", "D", "in")] in
  (∀ text cls typ op, (text, cls, typ, op) ∈ phrases → known_operator op)
  ∧ phrase_rows_well_formed (conn s)
  ∧ ∃ result s' E',
      update_special_phrases sample_analysis phrases true s = (Ok result, s')
      ∧ read_existing_phrases (select_special_phrases (conn s')) ∅ = Ok E'.
Proof.
  intros s phrases.
  assert (∀ text cls typ op, (text, cls, typ, op) ∈ phrases → known_operator op)
    as Hknown.
  { intros text cls typ op Hin. apply list_elem_of_singleton in Hin.
    injection Hin as -> -> -> ->. left. reflexivity. }
  assert (phrase_rows_well_formed (conn s)) as Hwf.
  { intros r Hr _. apply list_elem_of_singleton in Hr. subst r.
    split; [eexists; reflexivity|]. eexists. split; [reflexivity|]. discriminate. }
  split; [exact Hknown|]. split; [exact Hwf|].
  destruct (update_special_phrases_replace_round_trip sample_analysis phrases s
              Hknown Hwf) as (result & s' & E' & Hrun & HE' & _).
  exists result, s', E'. split; [exact Hrun|exact HE'].
Defined.

Lemma update_special_phrases_twice_witness :
  let s := analyzer_init [special_phrase_row "a" "a" "A" "B" "-"] in
  let phrases := [("b", "C", "D", "in")] in
  let E : gset phrase := {[ (Some "a", "A", "B", "-") ]} in
  read_existing_phrases (select_special_phrases (conn s)) ∅ = Ok E
  ∧ (∀ text cls typ op, (text, cls, typ, op) ∈ phrases → known_operator op)
  ∧ phrase_rows_well_formed (conn s)
  ∧ ∃ result s1 s2,
      update_special_phrases sample_analysis phrases true s = (Ok result, s1)
      ∧ update_special_phrases sample_analysis phrases true s1
        = (Ok (Z.of_nat (size (norm_phrases_of sample_analysis phrases)), 0, 0), s2)
      ∧ conn s2 = conn s1.
Proof.
  intros s phrases E.
  assert (read_existing_phrases (select_special_phrases (conn s)) ∅ = Ok E) as HE
    by (by vm_compute).
  assert (∀ text cls typ op, (text, cls, typ, op) ∈ phrases → known_operator op)
    as Hknown.
  { intros text cls typ op Hin. apply list_elem_of_singleton in Hin.
    injection Hin as -> -> -> ->. left. reflexivity. }
  assert (phrase_rows_well_formed (conn s)) as Hwf.
  { intros r Hr _. apply list_elem_of_singleton in Hr. subst r.
    split; [eexists; reflexivity|]. eexists. split; [reflexivity|]. discriminate. }
  split; [exact HE|]. split; [exact Hknown|]. split; [exact Hwf|].
  exact (update_special_phrases_twice sample_analysis phrases true s E HE Hknown
           (λ _, Hwf)).
Defined.

Lemma update_special_phrases_empty_list_witness :
  let s := analyzer_init [special_phrase_row "a" "a" "A" "B" "-"] in
  let E : gset phrase := {[ (Some "a", "A", "B", "-") ]} in
  read_existing_phrases (select_special_phrases (conn s)) ∅ = Ok E
  ∧ ∃ s', update_special_phrases sample_analysis [] false s = (Ok (0, 0, 0), s')
          ∧ conn s' = conn s.
Proof.
  intros s E.
  assert (read_existing_phrases (select_special_phrases (conn s)) ∅ = Ok E) as HE
    by (by vm_compute).
  split; [exact HE|].
  exact (proj1 (update_special_phrases_empty_list sample_analysis s E HE)).
Defined.

Lemma compute_partial_tokens_twice_witness :
  let fresh := λ (db : list word_row) (w : string),
    (db ++ [{| word_id := Some (next_id db); word_token := w; type := "w";
               word := None; info := None |}], next_id db) in
  (∀ db w, (fresh db w).2 ≠ 0)
  ∧ ∃ tokens s1,
      _compute_partial_tokens sample_analysis fresh "main st" (analyzer_init [])
      = (Ok tokens, s1)
      ∧ _compute_partial_tokens sample_analysis fresh "main st" s1
        = (Ok ((λ w, default 0 (partials (_cache s1) !! w))
                 <$> Py.split (_search_normalized sample_analysis "main st")), s1).
Proof.
  intros fresh.
  assert (∀ db w, (fresh db w).2 ≠ 0) as Hnz.
  { intros db w. unfold fresh, next_id. simpl. lia. }
  split; [exact Hnz|].
  exact (compute_partial_tokens_twice sample_analysis fresh "main st"
           (analyzer_init []) Hnz).
Defined.

Lemma compute_name_tokens_raises_at_first_unmapped_witness :
  let before := [mk_name "a" None] in
  let bad := mk_name "b" (Some "zz") in
  let s := analyzer_init [] in
  ∃ acc s1,
    _compute_name_tokens sample_analysis sample_getorcreate_full_word before s
    = (Ok acc, s1)
    ∧ names (_cache s1) !! dispatch_key sample_analysis bad = None
    ∧ analysis sample_analysis !! get_attr bad "analyzer" = None
    ∧ _compute_name_tokens sample_analysis sample_getorcreate_full_word
        (before ++ [bad]) s = (Raise KeyError, s1).
Proof.
  intros before bad s.
  destruct (_compute_name_tokens sample_analysis sample_getorcreate_full_word
              before s) as [[acc|e] s1] eqn:Hrun.
  - assert (names (_cache s1) !! dispatch_key sample_analysis bad = None) as Hc.
    { vm_compute in Hrun. injection Hrun as _ <-. reflexivity. }
    assert (analysis sample_analysis !! get_attr bad "analyzer" = None) as Ha
      by reflexivity.
    exists acc, s1. split; [reflexivity|]. split; [exact Hc|]. split; [exact Ha|].
    exact (compute_name_tokens_raises_at_first_unmapped sample_analysis
             sample_getorcreate_full_word before bad [] s acc s1 Hrun Hc Ha).
  - vm_compute in Hrun. discriminate Hrun.
Defined.

Lemma process_place_returns_witness :
  let place := {| place_names := [mk_name "a" None; mk_name "b" (Some "mute")];
                  place_address := [mk_address "housenumber" "4;6"];
                  is_country := true; country_code := "de" |} in
  (∀ n, n ∈ place_names place →
        is_Some (analysis sample_analysis !! get_attr n "analyzer"))
  ∧ ∃ data s',
      process_place sample_analysis sample_getorcreate_full_word
        (sample_getorcreate "w") (sample_getorcreate "H") place (analyzer_init [])
      = (Ok data, s')
      ∧ (is_Some (data !! "names") ↔ place_names place ≠ []).
Proof.
  intros place.
  assert (∀ n, n ∈ place_names place →
               is_Some (analysis sample_analysis !! get_attr n "analyzer")) as Hall.
  { intros n Hn. apply elem_of_cons in Hn as [->|Hn]; [eexists; reflexivity|].
    apply list_elem_of_singleton in Hn. subst n. eexists; reflexivity. }
  split; [exact Hall|].
  exact (process_place_returns sample_analysis sample_getorcreate_full_word
           (sample_getorcreate "w") (sample_getorcreate "H") place
           (analyzer_init []) Hall).
Defined.

Lemma normalize_postcode_insensitive_witness :
  Py.strip " " = "" ∧ Py.strip "  " = ""
  ∧ normalize_postcode (" " +:+ "ab1 2cd" +:+ "  ") = normalize_postcode "ab1 2cd"
  ∧ normalize_postcode (Py.upper "ab1 2cd") = normalize_postcode "ab1 2cd".
Proof.
  split; [reflexivity|]. split; [reflexivity|].
  apply (normalize_postcode_insensitive " " "ab1 2cd" "  "); reflexivity.
Defined.

(** The postcode rows follow the postcode table. *)
Example update_postcodes_from_db_example :
  update_postcodes_from_db sample_analysis [Some "a"; None; Some "b"; Some "a"]
    [postcode_row sample_analysis "b"; postcode_row sample_analysis "c";
     {| word_id := Some 1; word_token := "c"; type := "W"; word := Some "c";
        info := None |}]
  = [postcode_row sample_analysis "b";
     {| word_id := Some 1; word_token := "c"; type := "W"; word := Some "c";
        info := None |};
     postcode_row sample_analysis "a"].
Proof. by vm_compute. Qed.

(** Full words carry a [#], partial words do not. *)
Example get_word_token_info_example :
  get_word_token_info sample_analysis
    [{| word_id := Some 1; word_token := "c"; type := "W"; word := Some "c";
        info := None |};
     {| word_id := Some 2; word_token := "c"; type := "w"; word := None;
        info := None |}]
    ["#c"; "c"; "d"; "#c"; "#"]
  = [("#c", "c", Some 1); ("#", "", None); ("c", "c", Some 2); ("d", "d", None)].
Proof. by vm_compute. Qed.
